(** * kqm: Kafka queue size monitor

    A shallow embedding of the monitor of [QueueSizeMonitor] (the Go file
    that declares [GetBrokerOffsets], [computeLag], [storeConsumerOffset]
    and [formatConsumerOffsetMessage]) and the properties of its
    specification.

    Conventions of the embedding:
    - Go's fixed-width integers are [Z] with the wrap-around written out
      ([to_int32], [to_int64], [sub64]);
    - a [[]byte] is a [list byte], a Go [string] (a byte sequence) is a
      [string], converted by [string_of_list_byte];
    - a Go [map] is a [gmap]; [range] over a map visits [map_to_list] (Go
      leaves the order unspecified, so no statement depends on it);
    - a [bytes.Buffer] is its unread part;
    - output (log lines, calls of the Statsd client) is returned as a list
      of effects; a [go f(x)] statement contributes the effects of [f x]
      at the place of the statement. *)

From Stdlib Require Import ZArith Lia List Strings.Ascii Strings.String Strings.Byte.
From stdpp Require Import base option list gmap strings pretty.

Local Open Scope Z_scope.

(** ** Integers *)

Module Int.

(** [uint64 -> int64] and [uint32 -> int32] conversions: the same bits,
    read as two's complement. *)
Definition to_int64 (z : Z) : Z := (z + 2 ^ 63) mod 2 ^ 64 - 2 ^ 63.
Definition to_int32 (z : Z) : Z := (z + 2 ^ 31) mod 2 ^ 32 - 2 ^ 31.

(** [a - b] on [int64]. *)
Definition sub64 (a b : Z) : Z := to_int64 (a - b).

Definition is_int32 (z : Z) : Prop := - 2 ^ 31 ≤ z < 2 ^ 31.
Definition is_int64 (z : Z) : Prop := - 2 ^ 63 ≤ z < 2 ^ 63.
Definition is_uint16 (z : Z) : Prop := 0 ≤ z < 2 ^ 16.

End Int.

(** ** Bytes and [encoding/binary] *)

Module Binary.

Definition byte_to_Z (b : byte) : Z := Z.of_N (Byte.to_N b).

(** The byte of the low eight bits. *)
Definition byte_of_Z (z : Z) : byte :=
  default x00 (Byte.of_N (Z.to_N (z mod 256))).

(** [binary.BigEndian.Uint16/32/64]: the most significant byte first. *)
Definition BigEndian (bs : list byte) : Z :=
  foldl (λ acc b, acc * 256 + byte_to_Z b) 0 bs.

(** [binary.BigEndian.PutUint..]: [size] bytes of [z], wrapped. *)
Fixpoint PutBigEndian (size : nat) (z : Z) : list byte :=
  match size with
  | O => []
  | S n => byte_of_Z (z / 256 ^ Z.of_nat n) :: PutBigEndian n z
  end.

End Binary.

(** ** [bytes.Buffer], [io.ReadFull], [binary.Read] *)

Inductive error : Type :=
  | EOF                (* io.EOF *)
  | ErrUnexpectedEOF   (* io.ErrUnexpectedEOF *)
  | StringUnderflow.   (* fmt.Errorf("string underflow") *)

Global Instance error_eq_dec : EqDecision error.
Proof. solve_decision. Defined.

(** The unread part [b.buf[b.off:]] of a [bytes.Buffer]. *)
Definition Buffer : Type := list byte.

Module Buf.

(** [b.Read(p)] with [len(p) = n]: the bytes copied into [p] and the
    error.  An empty buffer answers [io.EOF], except to an empty [p]. *)
Definition Read (n : nat) (b : Buffer) : (list byte * option error) * Buffer :=
  match b with
  | [] => match n with
          | O => (([], None), [])
          | S _ => (([], Some EOF), [])
          end
  | _ => ((take n b, None), drop n b)
  end.

(** [io.ReadFull(b, p)] with [len(p) = n]: reads until [p] is full or the
    buffer is exhausted; a partial read is [io.ErrUnexpectedEOF] and
    leaves the buffer empty. *)
Definition ReadFull (n : nat) (b : Buffer) : (list byte * option error) * Buffer :=
  if decide (n ≤ length b)%nat then ((take n b, None), drop n b)
  else match b with
       | [] => (([], Some EOF), [])
       | _ => ((b, Some ErrUnexpectedEOF), [])
       end.

(** [binary.Read(b, binary.BigEndian, &data)] for an unsigned integer of
    [size] bytes: the error and the new content of [data], which keeps
    its old value when the read fails. *)
Definition binary_Read (size : nat) (data : Z) (b : Buffer)
  : (option error * Z) * Buffer :=
  match ReadFull size b with
  | ((bs, None), b') => ((None, Binary.BigEndian bs), b')
  | ((_, Some e), b') => ((Some e, data), b')
  end.

End Buf.

(** ** The decoder's control flow

    [Fail err] is the statement pair [logError(err); return]; [err] is
    [None] for Go's [nil]. *)

Inductive result (A : Type) : Type :=
  | Ok (a : A)
  | Fail (err : option error).
Arguments Ok {A} a.
Arguments Fail {A} err.

Record Dec (A : Type) : Type := MkDec { run : Buffer → result A * Buffer }.
Arguments MkDec {A} run.
Arguments run {A} d b.

Global Instance Dec_ret : MRet Dec := λ A a, MkDec (λ b, (Ok a, b)).

Global Instance Dec_bind : MBind Dec := λ A B k m,
  MkDec (λ b, match run m b with
              | (Ok a, b') => run (k a) b'
              | (Fail e, b') => (Fail e, b')
              end).

(** [err = binary.Read(buf, binary.BigEndian, &v); if err != nil
    { logError(err); return }] for a fresh [v]. *)
Definition read_uint (size : nat) : Dec Z :=
  MkDec (λ b, match Buf.binary_Read size 0 b with
              | ((None, v), b') => (Ok v, b')
              | ((Some e, _), b') => (Fail (Some e), b')
              end).

(** The closure [readString] of [formatConsumerOffsetMessage]: a two-byte
    length [strlen], then [readBytes]: a slice of [strlen] bytes is filled
    by one [buf.Read].  Every caller logs the error and returns. *)
Definition readBytes (strlen : Z) : Dec string :=
  MkDec (λ b, match Buf.Read (Z.to_nat strlen) b with
              | ((strbytes, err), b') =>
                  if decide (err ≠ None ∨ length strbytes ≠ Z.to_nat strlen)
                  then (Fail (Some StringUnderflow), b')
                  else (Ok (string_of_list_byte strbytes), b')
              end).

Definition readString : Dec string :=
  strlen ← read_uint 2;
  readBytes strlen.

(** Three properties of a reader.  It is [stable] when a successful read
    of a buffer is the same read of every extension of the buffer (it looks
    at what it consumes only); it stays [within] the buffer when what it
    leaves is a suffix of what it was given; it is [loud] when each of its
    failures carries an error. *)
Definition stable {A} (m : Dec A) : Prop :=
  ∀ b a b', run m b = (Ok a, b') → ∀ ext, run m (b ++ ext) = (Ok a, b' ++ ext).

Definition within {A} (m : Dec A) : Prop :=
  ∀ b r b', run m b = (r, b') → b' `suffix_of` b.

Definition loud {A} (m : Dec A) : Prop :=
  ∀ b e b', run m b = (Fail e, b') → is_Some e.

(** ** Data model *)

(** [PartitionOffset] of [types.go]. *)
Record PartitionOffset : Type := {
  Topic : string;
  Partition : Z;   (* int32 *)
  Offset : Z;      (* int64 *)
  Timestamp : Z;   (* int64 *)
  Group : string
}.

(** Modelled from the spec: the declarations of the map types
    [POffsetMap], [TPOffsetMap] and [GTPOffsetMap] are not among the source
    files; the spec gives them as [partition -> offset],
    [topic -> (partition -> offset)] and
    [group -> (topic -> (partition -> offset))], and the code uses them so
    ([make(TPOffsetMap)], [store[group][topic][partition] = offset]). *)
Abbreviation POffsetMap := (gmap Z Z).
Abbreviation TPOffsetMap := (gmap string (gmap Z Z)).
Abbreviation GTPOffsetMap := (gmap string (gmap string (gmap Z Z))).

(** Go's [m[topic][partition]] on a [TPOffsetMap]: a missing key at either
    level reads as the zero value. *)
Definition index_tp (m : TPOffsetMap) (topic : string) (partition : Z) : Z :=
  default 0 (default ∅ (m !! topic) !! partition).

(** Go's [m[group][topic][partition]] on a [GTPOffsetMap]. *)
Definition index_gtp (m : GTPOffsetMap) (group topic : string) (partition : Z) : Z :=
  index_tp (default ∅ (m !! group)) topic partition.

(** The table operations [lookup] of the spec: the comma-ok form of the
    index expressions above. *)
Definition lookup_tp (m : TPOffsetMap) (topic : string) (partition : Z) : option Z :=
  m !! topic ≫= λ tbody, tbody !! partition.

Definition lookup_gtp (m : GTPOffsetMap) (group topic : string) (partition : Z)
  : option Z :=
  m !! group ≫= λ gbody, lookup_tp gbody topic partition.

(** [StatsdConfig] of [types.go]. *)
Record StatsdConfig : Type := { Addr : string; Prefix : string }.

(** The external package [statsd]: the [Gauge] method of a client answers
    an error or [nil]. *)
Module statsd.
Record StatsdClient : Type := { Gauge : string → Z → option string }.
End statsd.

(** The external package [sarama], as far as the monitor uses it. *)
Module sarama.

Record Broker : Type := { ID : Z }.

(** [Leader(topic, partition)] answers the leader or an error. *)
Record Client : Type := { Leader : string → Z → option Broker }.

(** An [OffsetRequest] keeps one block [(time, maxOffsets)] per topic and
    partition, in a map of maps. *)
Record OffsetRequest : Type := { blocks : gmap string (gmap Z (Z * Z)) }.

Definition AddBlock (topic : string) (partitionID time maxOffsets : Z)
    (r : OffsetRequest) : OffsetRequest :=
  {| blocks := <[topic := <[partitionID := (time, maxOffsets)]>
                            (default ∅ (blocks r !! topic))]> (blocks r) |}.

Definition OffsetNewest : Z := -1.

(** [sarama.ConsumerMessage], the two buffers that the parser reads. *)
Record ConsumerMessage : Type := { Key : list byte; Value : list byte }.

End sarama.

(** [BrokerOffsetRequest] of [types.go]. *)
Record BrokerOffsetRequest : Type := {
  Broker : sarama.Broker;
  OffsetRequest : sarama.OffsetRequest
}.

(** What the monitor prints and sends. *)
Inductive Effect : Type :=
  | LogParseError (err : option error)
      (* log.Println("Error while parsing message.", err) *)
  | LogNegativeLag (stat : string) (lag : Z)
      (* log.Printf("Negative Lag received for %s: %d", stat, lag) *)
  | LogLag (topic : string) (partition brokerOffset consumerOffset lag : Z)
           (group : string)
      (* the block of computeLag that prints offsets and lag *)
  | LogStatsdNotInitialized
      (* log.Println("Statsd Client not initialized yet.") *)
  | SendGauge (stat : string) (value : Z)
      (* qsm.StatsdClient.Gauge(stat, value) *)
  | LogStatsdError (err : string)
      (* log.Println("Error while sending gauge to statsd:", err) *)
  | LogGaugeSent (stat : string) (value : Z).
      (* log.Printf("Gauge sent to Statsd: %s=%d", stat, value) *)

Global Instance Effect_eq_dec : EqDecision Effect.
Proof. solve_decision. Defined.

(** [QueueSizeMonitor]: the fields that the modelled methods touch.  The
    mutexes and wait groups have no sequential content. *)
Record QueueSizeMonitor : Type := {
  Client : sarama.Client;
  ConsumerOffsetStore : GTPOffsetMap;
  BrokerOffsetStore : TPOffsetMap;
  StatsdClient : option statsd.StatsdClient;   (* a pointer: [None] is nil *)
  StatsdCfg : StatsdConfig
}.

Definition set_ConsumerOffsetStore (s : GTPOffsetMap) (qsm : QueueSizeMonitor)
  : QueueSizeMonitor :=
  {| Client := Client qsm;
     ConsumerOffsetStore := s;
     BrokerOffsetStore := BrokerOffsetStore qsm;
     StatsdClient := StatsdClient qsm;
     StatsdCfg := StatsdCfg qsm |}.

Definition set_BrokerOffsetStore (s : TPOffsetMap) (qsm : QueueSizeMonitor)
  : QueueSizeMonitor :=
  {| Client := Client qsm;
     ConsumerOffsetStore := ConsumerOffsetStore qsm;
     BrokerOffsetStore := s;
     StatsdClient := StatsdClient qsm;
     StatsdCfg := StatsdCfg qsm |}.

(** [NewQueueSizeMonitor]: [client] and [socket] are the answers of
    [sarama.NewClient] and of [statsdClient.CreateSocket] ([None] for an
    error); the Statsd client of the new monitor is never nil. *)
Definition NewQueueSizeMonitor (client : option sarama.Client)
    (statsdClient : statsd.StatsdClient)
    (socket : option unit) (statsdCfg : StatsdConfig) : option QueueSizeMonitor :=
  match client with
  | None => None
  | Some client =>
      match socket with
      | None => None
      | Some _ =>
          Some {| Client := client;
                  ConsumerOffsetStore := ∅;
                  BrokerOffsetStore := ∅;
                  StatsdClient := Some statsdClient;
                  StatsdCfg := statsdCfg |}
      end
  end.

(** ** The tables *)

(** [storeConsumerOffset]: the two inner maps are made when missing, then
    the offset is assigned. *)
Definition storeConsumerOffset (newOffset : PartitionOffset) (qsm : QueueSizeMonitor)
  : QueueSizeMonitor :=
  let group := Group newOffset in
  let topic := Topic newOffset in
  let partition := Partition newOffset in
  let offset := Offset newOffset in
  let s0 := ConsumerOffsetStore qsm in
  let s1 := match s0 !! group with
            | None => <[group := ∅]> s0
            | Some _ => s0
            end in
  let s2 := match default ∅ (s1 !! group) !! topic with
            | None => <[group := <[topic := ∅]> (default ∅ (s1 !! group))]> s1
            | Some _ => s1
            end in
  let gbody := default ∅ (s2 !! group) in
  let tbody := default ∅ (gbody !! topic) in
  set_ConsumerOffsetStore
    (<[group := <[topic := <[partition := offset]> tbody]> gbody]> s2) qsm.

(** [storeBrokerOffset]. *)
Definition storeBrokerOffset (newOffset : PartitionOffset) (qsm : QueueSizeMonitor)
  : QueueSizeMonitor :=
  let topic := Topic newOffset in
  let partition := Partition newOffset in
  let offset := Offset newOffset in
  let s0 := BrokerOffsetStore qsm in
  let s1 := match s0 !! topic with
            | None => <[topic := ∅]> s0
            | Some _ => s0
            end in
  set_BrokerOffsetStore
    (<[topic := <[partition := offset]> (default ∅ (s1 !! topic))]> s1) qsm.

(** ** The parser of offset-commit records *)

(** The fields of a key after its version: the first case of the
    [switch]. *)
Definition readKeyFields : Dec (string * string * Z) :=
  group ← readString;
  topic ← readString;
  partition ← read_uint 4;
  mret (group, topic, partition).

(** The key part of [formatConsumerOffsetMessage].  The error of the read
    of [keyver] is not tested: after a failed read [keyver] is still 0 and
    the first case is taken. *)
Definition decodeKey : Dec (string * string * Z) :=
  MkDec (λ buf,
    let '((err, keyver), buf) := Buf.binary_Read 2 0 buf in
    if decide (keyver = 0 ∨ keyver = 1) then run readKeyFields buf
    else if decide (keyver = 2) then (Fail err, buf)
    else (Fail err, buf)).

(** The fields of a value after its version. *)
Definition readValueFields : Dec (Z * Z) :=
  offset ← read_uint 8;
  _ ← readString;
  timestamp ← read_uint 8;
  mret (offset, timestamp).

(** The value part: the version, then offset, metadata string and
    timestamp, whatever the version. *)
Definition decodeValue : Dec (Z * Z) :=
  MkDec (λ buf,
    let '((err, valver), buf) := Buf.binary_Read 2 0 buf in
    if decide (err ≠ None ∨ (valver ≠ 0 ∧ valver ≠ 1)) then (Fail err, buf)
    else run readValueFields buf).

(** The record that the parser builds from the decoded fields, with the
    conversions to the signed types. *)
Definition parseMessage (message : sarama.ConsumerMessage) : result PartitionOffset :=
  match run decodeKey (sarama.Key message) with
  | (Fail err, _) => Fail err
  | (Ok (group, topic, partition), _) =>
      match run decodeValue (sarama.Value message) with
      | (Fail err, _) => Fail err
      | (Ok (offset, timestamp), _) =>
          Ok {| Topic := topic;
                Partition := Int.to_int32 partition;
                Group := group;
                Timestamp := Int.to_int64 timestamp;
                Offset := Int.to_int64 offset |}
      end
  end.

(** [formatConsumerOffsetMessage]: the new monitor and what was logged. *)
Definition formatConsumerOffsetMessage (message : sarama.ConsumerMessage)
    (qsm : QueueSizeMonitor) : QueueSizeMonitor * list Effect :=
  match parseMessage message with
  | Fail err => (qsm, [LogParseError err])
  | Ok partitionOffset => (storeConsumerOffset partitionOffset qsm, [])
  end.

(** ** The reporter *)

(** The verb [%d] of [fmt.Sprintf] on an integer. *)
Definition fmt_d (z : Z) : string := pretty z.

(** [fmt.Sprintf("%s.group.%s.%s.%d", prefix, group, topic, partition)]. *)
Definition statName (prefix group topic : string) (partition : Z) : string :=
  prefix +:+ ".group." +:+ group +:+ "." +:+ topic +:+ "." +:+ fmt_d partition.

(** [sendGaugeToStatsd]. *)
Definition sendGaugeToStatsd (qsm : QueueSizeMonitor) (stat : string) (value : Z)
  : list Effect :=
  match StatsdClient qsm with
  | None => [LogStatsdNotInitialized]
  | Some client =>
      SendGauge stat value ::
      match statsd.Gauge client stat value with
      | Some err => [LogStatsdError err]
      | None => []
      end ++ [LogGaugeSent stat value]
  end.

(** The body of the innermost loop of [computeLag]. *)
Definition computeLag_body (qsm : QueueSizeMonitor) (brokerOffsetMap : TPOffsetMap)
    (consumerOffsetMap : GTPOffsetMap) (group topic : string) (partition : Z)
  : list Effect :=
  let lag := Int.sub64 (index_tp brokerOffsetMap topic partition)
                       (index_gtp consumerOffsetMap group topic partition) in
  let stat := statName (Prefix (StatsdCfg qsm)) group topic partition in
  if decide (lag < 0) then [LogNegativeLag stat lag]
  else sendGaugeToStatsd qsm stat lag ++
       [LogLag topic partition (index_tp brokerOffsetMap topic partition)
          (index_gtp consumerOffsetMap group topic partition) lag group].

(** [computeLag]: the three nested [range] loops. *)
Definition computeLag (qsm : QueueSizeMonitor) (brokerOffsetMap : TPOffsetMap)
    (consumerOffsetMap : GTPOffsetMap) : list Effect :=
  '(group, gbody) ← map_to_list consumerOffsetMap;
  '(topic, tbody) ← map_to_list gbody;
  '(partition, _) ← map_to_list tbody;
  computeLag_body qsm brokerOffsetMap consumerOffsetMap group topic partition.

(** ** The poller *)

(** [getTopicsAndPartitions]: every partition of every topic of every
    group is appended to the slice of its topic. *)
Definition getTopicsAndPartitions (offsetStore : GTPOffsetMap) : gmap string (list Z) :=
  foldl (λ tpMap '(_, gbody),
    foldl (λ tpMap '(topic, tbody),
      foldl (λ tpMap '(partition, _),
               <[topic := default [] (tpMap !! topic) ++ [partition]]> tpMap)
            tpMap (map_to_list tbody))
      tpMap (map_to_list gbody))
    ∅ (map_to_list offsetStore).

(** The bodies of the three loops of [getTopicsAndPartitions], from the
    innermost, and the partitions that one group contributes to the slice
    of a topic. *)
Definition stepP (topic : string) (tpMap : gmap string (list Z)) (pc : Z * Z)
  : gmap string (list Z) :=
  let '(partition, _) := pc in
  <[topic := default [] (tpMap !! topic) ++ [partition]]> tpMap.

Definition stepT (tpMap : gmap string (list Z)) (tb : string * gmap Z Z)
  : gmap string (list Z) :=
  let '(topic, tbody) := tb in foldl (stepP topic) tpMap (map_to_list tbody).

Definition stepG (tpMap : gmap string (list Z)) (gb : string * TPOffsetMap)
  : gmap string (list Z) :=
  let '(_, gbody) := gb in foldl stepT tpMap (map_to_list gbody).

Definition partitionsOf (t : string) (gbody : TPOffsetMap) : list Z :=
  match gbody !! t with
  | Some tbody => (map_to_list tbody).*1
  | None => []
  end.

(** Go's [tpMap[topic]]: the nil slice for a missing topic. *)
Definition index_slice (tpMap : gmap string (list Z)) (topic : string) : list Z :=
  default [] (tpMap !! topic).

(** How often a partition occurs in a slice, and how many groups of the
    table hold an entry for a (topic, partition). *)
Definition occurrences (partition : Z) (l : list Z) : nat :=
  length (filter (λ x, x = partition) l).

Definition holders (offsetStore : GTPOffsetMap) (topic : string) (partition : Z)
  : nat :=
  length (filter (λ gb, is_Some (lookup_tp gb.2 topic partition))
                 (map_to_list offsetStore)).

(** The body of the inner loop of [GetBrokerOffsets]: a pair whose leader
    cannot be found is skipped (and logged); a leader met for the first
    time gets an empty request; only for a leader already in the map a
    block is added. *)
Definition addToRequests (client : sarama.Client) (topic : string) (partition : Z)
    (brokerOffsetRequests : gmap Z BrokerOffsetRequest) : gmap Z BrokerOffsetRequest :=
  match sarama.Leader client topic partition with
  | None => brokerOffsetRequests
  | Some leaderBroker =>
      let leaderBrokerID := sarama.ID leaderBroker in
      match brokerOffsetRequests !! leaderBrokerID with
      | None =>
          <[leaderBrokerID := {| Broker := leaderBroker;
                                 OffsetRequest := {| sarama.blocks := ∅ |} |}]>
            brokerOffsetRequests
      | Some r =>
          <[leaderBrokerID := {| Broker := Broker r;
                                 OffsetRequest :=
                                   sarama.AddBlock topic partition
                                     sarama.OffsetNewest 1 (OffsetRequest r) |}]>
            brokerOffsetRequests
      end
  end.

(** The two loops of [GetBrokerOffsets] over [tpMap], in the order
    [tpList] in which [range] visits it. *)
Definition buildRequests (client : sarama.Client) (tpList : list (string * list Z))
  : gmap Z BrokerOffsetRequest :=
  foldl (λ reqs '(topic, partitions),
           foldl (λ reqs partition, addToRequests client topic partition reqs)
                 reqs partitions)
        ∅ tpList.

(** The (topic, partition) pairs in the order in which the two loops reach
    them. *)
Definition visits (tpList : list (string * list Z)) : list (string * Z) :=
  tpList ≫= λ tp, (λ partition, (tp.1, partition)) <$> tp.2.

(** One turn of the inner loop on a pair, and the identity of the leader
    of a pair, when the leader can be found. *)
Definition visitPair (client : sarama.Client)
    (brokerOffsetRequests : gmap Z BrokerOffsetRequest) (tp : string * Z)
  : gmap Z BrokerOffsetRequest :=
  addToRequests client tp.1 tp.2 brokerOffsetRequests.

Definition leaderOf (client : sarama.Client) (tp : string * Z) : option Z :=
  sarama.ID <$> sarama.Leader client tp.1 tp.2.

(** The request kept for [leader] has a block for (topic, partition). *)
Definition hasBlock (brokerOffsetRequests : gmap Z BrokerOffsetRequest)
    (leader : Z) (topic : string) (partition : Z) : Prop :=
  ∃ r, brokerOffsetRequests !! leader = Some r
       ∧ is_Some (default ∅ (sarama.blocks (OffsetRequest r) !! topic) !! partition).

(** The pairs for which the request kept for [leader] has a block. *)
Definition requestBlocks (brokerOffsetRequests : gmap Z BrokerOffsetRequest)
    (leader : Z) : list (string * Z) :=
  match brokerOffsetRequests !! leader with
  | Some r =>
      map_to_list (sarama.blocks (OffsetRequest r)) ≫= λ tb,
        (λ pb, (tb.1, pb.1)) <$> map_to_list tb.2
  | None => []
  end.

(** The requests that [GetBrokerOffsets] sends: one per entry of
    [brokerOffsetRequests]. *)
Definition GetBrokerOffsets_requests (qsm : QueueSizeMonitor)
  : list (Z * BrokerOffsetRequest) :=
  map_to_list
    (buildRequests (Client qsm)
       (map_to_list (getTopicsAndPartitions (ConsumerOffsetStore qsm)))).

(** ** The wire format of the specification

    The source only decodes.  The encoders below follow the layout of the
    specification: the commit key is [int16 version], [string group],
    [string topic], [int32 partition]; the commit value is [int16 version],
    [int64 offset], [string metadata], [int64 commitTimestamp]; a string is
    a two-byte length and its bytes; all integers are big-endian. *)

Module Wire.

Definition putString (s : string) : list byte :=
  Binary.PutBigEndian 2 (Z.of_nat (length (list_byte_of_string s)))
    ++ list_byte_of_string s.

Definition encodeKey (version : Z) (group topic : string) (partition : Z)
  : list byte :=
  Binary.PutBigEndian 2 version ++ putString group ++ putString topic
    ++ Binary.PutBigEndian 4 partition.

Definition encodeValue (version offset : Z) (metadata : string)
    (commitTimestamp : Z) : list byte :=
  Binary.PutBigEndian 2 version ++ Binary.PutBigEndian 8 offset
    ++ putString metadata ++ Binary.PutBigEndian 8 commitTimestamp.

(** A string whose length fits the two-byte prefix. *)
Definition fits (s : string) : Prop :=
  Z.of_nat (length (list_byte_of_string s)) < 2 ^ 16.

(** A buffer cut at a byte boundary before the end of [full]. *)
Definition truncated (b full : list byte) : Prop :=
  b `prefix_of` full ∧ b ≠ full.

End Wire.

(** ** Decimal numerals

    What the verb [%d] has to print, stated apart from [fmt_d]: a number
    from 0 to 9 is its digit, a number from 10 on is the numeral of its
    tenth followed by the digit of its remainder, and a negative number is
    a minus sign followed by the numeral of its opposite. *)



(** ** A sample monitor

    Leader 1 leads every partition but partition 1 of topic [t1], which
    leader 2 leads; the Statsd client accepts every gauge. *)

Module Sample.

Definition client : sarama.Client :=
  {| sarama.Leader := λ topic partition,
       if decide (topic = "t1" ∧ partition = 1)
       then Some {| sarama.ID := 2 |}
       else Some {| sarama.ID := 1 |} |}.

Definition monitor : QueueSizeMonitor :=
  {| Client := client;
     ConsumerOffsetStore := ∅;
     BrokerOffsetStore := ∅;
     StatsdClient := Some {| statsd.Gauge := λ _ _, None |};
     StatsdCfg := {| Addr := "127.0.0.1:8125"; Prefix := "kqm" |} |}.

Definition offset (group topic : string) (partition offset : Z)
  : PartitionOffset :=
  {| Topic := topic; Partition := partition; Offset := offset;
     Timestamp := 0; Group := group |}.

(** A broker offset, as the poller builds it: without a group. *)
Definition brokerOffset (topic : string) (partition offset : Z) : PartitionOffset :=
  {| Topic := topic; Partition := partition; Offset := offset;
     Timestamp := 0; Group := EmptyString |}.

(** Two groups that consume the same partition. *)
Definition twoGroups : QueueSizeMonitor :=
  storeConsumerOffset (offset "g2" "t" 0 7)
    (storeConsumerOffset (offset "g1" "t" 0 5) monitor).

(** One group on (t1, 0) and (t2, 0), led by leader 1, and on (t1, 1),
    led by leader 2. *)
Definition threePairs : QueueSizeMonitor :=
  storeConsumerOffset (offset "g" "t2" 0 100)
    (storeConsumerOffset (offset "g" "t1" 1 100)
       (storeConsumerOffset (offset "g" "t1" 0 100) monitor)).

(** The orders in which [range] can visit the topics of [threePairs] and
    the slices that [getTopicsAndPartitions] can have built for them. *)
Definition orders : list (list (string * list Z)) :=
  [ [("t1", [0; 1]); ("t2", [0])];
    [("t1", [1; 0]); ("t2", [0])];
    [("t2", [0]); ("t1", [0; 1])];
    [("t2", [0]); ("t1", [1; 0])] ].

End Sample.

(** ** The rest of the monitor *)

(** [createTPOffsetMap]: a slice of offsets folded into a table of its own;
    the inner map of a topic is made when missing. *)
Definition createTPOffsetMap (offsetStore : list PartitionOffset) : TPOffsetMap :=
  foldl (λ tpMap partitionOffset,
           let topic := Topic partitionOffset in
           let partition := Partition partitionOffset in
           let offset := Offset partitionOffset in
           let tpMap1 := match tpMap !! topic with
                         | None => <[topic := ∅]> tpMap
                         | Some _ => tpMap
                         end in
           <[topic := <[partition := offset]> (default ∅ (tpMap1 !! topic))]> tpMap1)
        ∅ offsetStore.

(** The entries of a consumer table in the order in which the loops of
    [computeLag] reach them. *)
Definition entries (m : GTPOffsetMap) : list (string * string * Z * Z) :=
  gb ← map_to_list m;
  tb ← map_to_list gb.2;
  pc ← map_to_list tb.2;
  [(gb.1, tb.1, pc.1, pc.2)].

(** The answer of a broker to an offset request, as [sarama] decodes it:
    per topic and partition a block with an error code, the offsets and a
    timestamp. *)
Module offsets.

Record OffsetResponseBlock : Type := {
  Err : Z;               (* sarama.KError *)
  Offsets : list Z;      (* []int64 *)
  Timestamp : Z
}.

Record OffsetResponse : Type := {
  Blocks : gmap string (gmap Z OffsetResponseBlock)
}.

Definition ErrNoError : Z := 0.

(** The block of a response for (topic, partition). *)
Definition blockAt (response : OffsetResponse) (topic : string) (partition : Z)
  : option OffsetResponseBlock :=
  Blocks response !! topic ≫= λ partitionMap, partitionMap !! partition.

End offsets.

(** What the stored offset of a pair becomes when the answer has [block]
    for it: the first offset of a block without error, else the old one. *)
Definition pick (block : option offsets.OffsetResponseBlock) (old : option Z)
  : option Z :=
  match block with
  | Some b =>
      if decide (offsets.Err b = offsets.ErrNoError)
      then head (offsets.Offsets b) else old
  | None => old
  end.

(** The body of the inner loop of the closure [getOffsetResponse] of
    [GetBrokerOffsets].  A block with an error is logged and skipped; of
    the others the first offset is stored.  [None] is the run-time panic of
    the index expression [Offsets[0]] on an empty slice. *)
Definition storeResponseBlock (topic : string) (qsm : option QueueSizeMonitor)
    (pb : Z * offsets.OffsetResponseBlock) : option QueueSizeMonitor :=
  q ← qsm;
  if decide (offsets.Err pb.2 ≠ offsets.ErrNoError) then Some q
  else match offsets.Offsets pb.2 with
       | [] => None
       | offset :: _ =>
           Some (storeBrokerOffset
                   {| Topic := topic; Partition := pb.1; Offset := offset;
                      Timestamp := offsets.Timestamp pb.2;
                      Group := EmptyString |} q)
       end.

(** The closure [getOffsetResponse] on the answer of
    [request.Broker.GetAvailableOffsets]: [None] for an error, which is
    logged (and the broker closed). *)
Definition getOffsetResponse (answer : option offsets.OffsetResponse)
    (qsm : QueueSizeMonitor) : option QueueSizeMonitor :=
  match answer with
  | None => Some qsm
  | Some response =>
      foldl (λ q tb, foldl (storeResponseBlock tb.1) q (map_to_list tb.2))
            (Some qsm) (map_to_list (offsets.Blocks response))
  end.

(** Two invariants of the poller: no slice of the map of topics is empty,
    and every request is kept under the identity of its broker. *)
Definition filled (tpMap : gmap string (list Z)) : Prop :=
  ∀ t l, tpMap !! t = Some l → l ≠ [].

Definition keyed (reqs : gmap Z BrokerOffsetRequest) : Prop :=
  ∀ leader r, reqs !! leader = Some r → sarama.ID (Broker r) = leader.

(** [parseCommand] of [main.go], on the values that [flag.Parse] leaves in
    the three flags and in [flag.Args]; [None] is the error for a command
    line without brokers.  [QMConfig] is the record that the function
    builds; the product of the interval and [time.Second] is an [int64]
    (an [int] has 64 bits). *)
Module Main.

Record KafkaConfig : Type := { Brokers : list string }.

Record QMConfig : Type := {
  KafkaCfg : KafkaConfig;
  StatsdCfg : StatsdConfig;
  ReadInterval : Z   (* time.Duration, in nanoseconds *)
}.

Definition Second : Z := 1000000000.

Definition parseCommand (readInterval : Z) (statsdAddr statsdPrefix : string)
    (brokers : list string) : option QMConfig :=
  match brokers with
  | [] => None
  | _ =>
      Some {| KafkaCfg := {| Brokers := brokers |};
              StatsdCfg := {| Addr := statsdAddr; Prefix := statsdPrefix |};
              ReadInterval := Int.to_int64 (readInterval * Second) |}
  end.

End Main.

(** Values for the examples below. *)
Module Fixture.

(** A monitor whose Statsd client was never set. *)
Definition noClient : QueueSizeMonitor :=
  {| Client := Sample.client;
     ConsumerOffsetStore := ConsumerOffsetStore Sample.twoGroups;
     BrokerOffsetStore := ∅;
     StatsdClient := None;
     StatsdCfg := {| Addr := "127.0.0.1:8125"; Prefix := "kqm" |} |}.

(** An answer with a good block, a block with an error and, in
    [panicking], a block without error and without offsets. *)
Definition good : offsets.OffsetResponseBlock :=
  {| offsets.Err := 0; offsets.Offsets := [110]; offsets.Timestamp := 0 |}.

Definition failed : offsets.OffsetResponseBlock :=
  {| offsets.Err := 3; offsets.Offsets := []; offsets.Timestamp := 0 |}.

Definition hollow : offsets.OffsetResponseBlock :=
  {| offsets.Err := 0; offsets.Offsets := []; offsets.Timestamp := 0 |}.

Definition answer : offsets.OffsetResponse :=
  {| offsets.Blocks := {[ "t1" := {[ 0 := good; 1 := failed ]} ]} |}.

Definition panicking : offsets.OffsetResponse :=
  {| offsets.Blocks := {[ "t1" := {[ 0 := good ]}; "t2" := {[ 0 := hollow ]} ]} |}.

End Fixture.

(** * Properties *)

(** ** Integers and bytes *)

Section IntFacts.

Lemma to_int64_id z : Int.is_int64 z → Int.to_int64 z = z.
Proof.
  unfold Int.is_int64, Int.to_int64. intros Hz.
  rewrite Z.mod_small by lia. lia.
Qed.

Lemma to_int64_wrap z : Int.is_int64 z → Int.to_int64 (z mod 2 ^ 64) = z.
Proof.
  unfold Int.is_int64, Int.to_int64. intros Hz.
  rewrite Zplus_mod_idemp_l. rewrite Z.mod_small by lia. lia.
Qed.

Lemma to_int32_wrap z : Int.is_int32 z → Int.to_int32 (z mod 2 ^ 32) = z.
Proof.
  unfold Int.is_int32, Int.to_int32. intros Hz.
  rewrite Zplus_mod_idemp_l. rewrite Z.mod_small by lia. lia.
Qed.

Lemma to_int64_range z : Int.is_int64 (Int.to_int64 z).
Proof.
  unfold Int.is_int64, Int.to_int64.
  pose proof (Z.mod_pos_bound (z + 2 ^ 63) (2 ^ 64)). lia.
Qed.

Lemma sub64_exact a b : Int.is_int64 (a - b) → Int.sub64 a b = a - b.
Proof. apply to_int64_id. Qed.

Lemma sub64_nonneg_offsets a b :
  0 ≤ a < 2 ^ 63 → 0 ≤ b < 2 ^ 63 → Int.sub64 a b = a - b.
Proof. intros Ha Hb. apply sub64_exact. unfold Int.is_int64. lia. Qed.

End IntFacts.

Section BinaryFacts.

Import Binary.

Lemma byte_to_Z_range b : 0 ≤ byte_to_Z b < 256.
Proof.
  unfold byte_to_Z. pose proof (Byte.to_N_bounded b). lia.
Qed.

Lemma byte_to_of_Z z : byte_to_Z (byte_of_Z z) = z mod 256.
Proof.
  unfold byte_to_Z, byte_of_Z.
  pose proof (Z.mod_pos_bound z 256 ltac:(lia)) as Hm.
  destruct (Byte.of_N (Z.to_N (z mod 256))) as [b|] eqn:Hb.
  - apply Byte.to_of_N in Hb. simpl. rewrite Hb. lia.
  - apply Byte.of_N_None_iff in Hb. lia.
Qed.

Lemma length_PutBigEndian n z : length (PutBigEndian n z) = n.
Proof. induction n as [|n IH]; simpl; [done | by rewrite IH]. Qed.

Lemma foldl_PutBigEndian n z acc :
  foldl (λ acc b, acc * 256 + byte_to_Z b) acc (PutBigEndian n z)
  = acc * 256 ^ Z.of_nat n + z mod 256 ^ Z.of_nat n.
Proof.
  revert acc. induction n as [|n IH]; intros acc.
  - simpl. rewrite Z.mod_1_r. lia.
  - cbn [PutBigEndian foldl]. rewrite IH, byte_to_of_Z.
    replace (Z.of_nat (S n)) with (Z.of_nat n + 1) by lia.
    rewrite Z.pow_add_r, Z.pow_1_r by lia.
    assert (0 < 256 ^ Z.of_nat n) by (apply Z.pow_pos_nonneg; lia).
    rewrite (Z.rem_mul_r z (256 ^ Z.of_nat n) 256) by lia.
    lia.
Qed.

(** Reading back what was put gives the value, wrapped to the width. *)
Lemma BigEndian_PutBigEndian n z :
  BigEndian (PutBigEndian n z) = z mod 256 ^ Z.of_nat n.
Proof. unfold BigEndian. rewrite foldl_PutBigEndian. lia. Qed.

Lemma BigEndian_range bs : 0 ≤ BigEndian bs < 256 ^ Z.of_nat (length bs).
Proof.
  unfold BigEndian.
  induction bs as [|b bs IH] using rev_ind.
  - simpl. lia.
  - rewrite foldl_app. cbn [foldl]. rewrite length_app. cbn [length].
    replace (Z.of_nat (length bs + 1)) with (Z.of_nat (length bs) + 1) by lia.
    rewrite Z.pow_add_r, Z.pow_1_r by lia.
    pose proof (byte_to_Z_range b). lia.
Qed.

End BinaryFacts.

(** ** The readers *)

Section Readers.

Lemma run_bind {A B} (m : Dec A) (k : A → Dec B) b :
  run (m ≫= k) b
  = match run m b with
    | (Ok a, b') => run (k a) b'
    | (Fail e, b') => (Fail e, b')
    end.
Proof. reflexivity. Qed.

Lemma run_ret {A} (a : A) b : run (mret a) b = (Ok a, b).
Proof. reflexivity. Qed.

Lemma ReadFull_app bs rest :
  Buf.ReadFull (length bs) (bs ++ rest) = ((bs, None), rest).
Proof.
  unfold Buf.ReadFull. rewrite decide_True by (rewrite length_app; lia).
  by rewrite take_app_length, drop_app_length.
Qed.

Lemma ReadFull_short n b :
  (length b < n)%nat →
  ∃ e bs, Buf.ReadFull n b = ((bs, Some e), []).
Proof.
  intros Hn. unfold Buf.ReadFull. rewrite decide_False by lia.
  destruct b; eauto.
Qed.

Lemma read_uint_put n z rest :
  run (read_uint n) (Binary.PutBigEndian n z ++ rest)
  = (Ok (z mod 256 ^ Z.of_nat n), rest).
Proof.
  unfold read_uint, Buf.binary_Read. cbn [run].
  pose proof (ReadFull_app (Binary.PutBigEndian n z) rest) as H.
  rewrite length_PutBigEndian in H. rewrite H.
  by rewrite BigEndian_PutBigEndian.
Qed.

Lemma read_uint_Ok n b v b' :
  run (read_uint n) b = (Ok v, b') →
  (n ≤ length b)%nat ∧ v = Binary.BigEndian (take n b) ∧ b' = drop n b.
Proof.
  unfold read_uint, Buf.binary_Read, Buf.ReadFull. cbn [run].
  case_decide; [|destruct b; discriminate].
  intros [= <- <-]. done.
Qed.

Lemma read_uint_short n b :
  (length b < n)%nat → ∃ e, run (read_uint n) b = (Fail (Some e), []).
Proof.
  intros Hn. unfold read_uint, Buf.binary_Read. cbn [run].
  destruct (ReadFull_short n b Hn) as (e & bs & ->). eauto.
Qed.

Lemma Read_app bs rest :
  Buf.Read (length bs) (bs ++ rest) = ((bs, None), rest).
Proof.
  unfold Buf.Read. destruct (bs ++ rest) as [|x l] eqn:E.
  - apply app_eq_nil in E as [-> ->]. done.
  - rewrite <- E. by rewrite take_app_length, drop_app_length.
Qed.

Lemma readString_put s rest :
  Wire.fits s → run readString (Wire.putString s ++ rest) = (Ok s, rest).
Proof.
  unfold Wire.fits, Wire.putString. intros Hs.
  unfold readString. rewrite run_bind, <- app_assoc, read_uint_put.
  change (256 ^ Z.of_nat 2) with (2 ^ 16).
  rewrite Z.mod_small by lia. unfold readBytes. cbn [run].
  rewrite Nat2Z.id, Read_app.
  rewrite decide_False by (intros [?|?]; congruence).
  by rewrite string_of_list_byte_of_string.
Qed.

Lemma stable_ret {A} (a : A) : stable (mret a).
Proof. intros b a' b' [= <- <-] ext. done. Qed.

Lemma stable_bind {A B} (m : Dec A) (k : A → Dec B) :
  stable m → (∀ a, stable (k a)) → stable (m ≫= k).
Proof.
  intros Hm Hk b r b' H ext. rewrite run_bind in *.
  destruct (run m b) as [[a|e] b1] eqn:E; [|discriminate].
  rewrite (Hm _ _ _ E ext). by apply Hk.
Qed.

Lemma within_ret {A} (a : A) : within (mret a).
Proof. intros b r b' [= <- <-]. done. Qed.

Lemma within_bind {A B} (m : Dec A) (k : A → Dec B) :
  within m → (∀ a, within (k a)) → within (m ≫= k).
Proof.
  intros Hm Hk b r b' H. rewrite run_bind in H.
  destruct (run m b) as [[a|e] b1] eqn:E.
  - etrans; [by eapply Hk | by eapply Hm].
  - injection H as <- <-. by eapply Hm.
Qed.

Lemma loud_ret {A} (a : A) : loud (mret a).
Proof. intros b e b' [=]. Qed.

Lemma loud_bind {A B} (m : Dec A) (k : A → Dec B) :
  loud m → (∀ a, loud (k a)) → loud (m ≫= k).
Proof.
  intros Hm Hk b e b' H. rewrite run_bind in H.
  destruct (run m b) as [[a|e1] b1] eqn:E.
  - by eapply Hk.
  - injection H as <- <-. by eapply Hm.
Qed.

Lemma ReadFull_within n b bs e b' :
  Buf.ReadFull n b = ((bs, e), b') → b' `suffix_of` b.
Proof.
  unfold Buf.ReadFull. case_decide.
  - intros [= <- <- <-]. apply suffix_drop.
  - destruct b; intros [= <- <- <-]; apply suffix_nil.
Qed.

Lemma Read_within n b bs e b' :
  Buf.Read n b = ((bs, e), b') → b' `suffix_of` b.
Proof.
  unfold Buf.Read. destruct b as [|x b].
  - destruct n; intros [= <- <- <-]; done.
  - intros [= <- <- <-]. apply suffix_drop.
Qed.

Lemma stable_read_uint n : stable (read_uint n).
Proof.
  intros b v b' H ext.
  apply read_uint_Ok in H as (Hn & -> & ->).
  unfold read_uint, Buf.binary_Read, Buf.ReadFull. cbn [run].
  rewrite decide_True by (rewrite length_app; lia).
  by rewrite take_app_le, drop_app_le by lia.
Qed.

Lemma within_read_uint n : within (read_uint n).
Proof.
  intros b r b'. unfold read_uint, Buf.binary_Read. cbn [run].
  destruct (Buf.ReadFull n b) as [[bs e] b1] eqn:E.
  apply ReadFull_within in E.
  destruct e; intros [= <- <-]; done.
Qed.

Lemma loud_read_uint n : loud (read_uint n).
Proof.
  intros b e b'. unfold read_uint, Buf.binary_Read. cbn [run].
  destruct (Buf.ReadFull n b) as [[bs [e1|]] b1]; intros [= <- <-]; eauto.
Qed.

Lemma readString_eq : readString = (read_uint 2 ≫= readBytes).
Proof. reflexivity. Qed.

Lemma stable_readBytes n : stable (readBytes n).
Proof.
  intros b s b' H ext. unfold readBytes in *. cbn [run] in *.
  set (m := Z.to_nat n) in *. clearbody m.
  destruct (Buf.Read m b) as [[bs e] b1] eqn:E.
  case_decide as Hd; [discriminate|]. injection H as <- <-.
  assert (e = None ∧ length bs = m) as [-> Hl].
  { split; [destruct e; [exfalso; apply Hd; left; done | done]|].
    destruct (decide (length bs = m)); [done|]. exfalso. tauto. }
  unfold Buf.Read in E. destruct b as [|x b].
  - destruct m; [|discriminate]. injection E as <- <-.
    rewrite app_nil_l. by destruct ext.
  - injection E as <- <-. rewrite length_take in Hl.
    unfold Buf.Read. cbn [app].
    change (x :: b ++ ext) with ((x :: b) ++ ext).
    rewrite take_app_le, drop_app_le by lia.
    rewrite decide_False; [done|]. rewrite length_take. intros [?|?]; [done|lia].
Qed.

Lemma within_readBytes n : within (readBytes n).
Proof.
  intros b r b'. unfold readBytes. cbn [run].
  destruct (Buf.Read (Z.to_nat n) b) as [[bs e] b1] eqn:E.
  apply Read_within in E. case_decide; intros [= <- <-]; done.
Qed.

Lemma loud_readBytes n : loud (readBytes n).
Proof.
  intros b e b'. unfold readBytes. cbn [run].
  destruct (Buf.Read (Z.to_nat n) b) as [[bs e1] b1].
  case_decide; intros [= <- <-]; eauto.
Qed.

Lemma stable_readString : stable readString.
Proof.
  rewrite readString_eq.
  apply stable_bind; [apply stable_read_uint | apply stable_readBytes].
Qed.

Lemma within_readString : within readString.
Proof.
  rewrite readString_eq.
  apply within_bind; [apply within_read_uint | apply within_readBytes].
Qed.

Lemma loud_readString : loud readString.
Proof.
  rewrite readString_eq.
  apply loud_bind; [apply loud_read_uint | apply loud_readBytes].
Qed.

End Readers.

(** ** The decoders of key and value *)

Section Decoders.

Lemma binary_Read_cases n d b :
  ((n ≤ length b)%nat ∧
   Buf.binary_Read n d b = ((None, Binary.BigEndian (take n b)), drop n b))
  ∨ ((length b < n)%nat ∧ ∃ e, Buf.binary_Read n d b = ((Some e, d), [])).
Proof.
  unfold Buf.binary_Read, Buf.ReadFull. case_decide.
  - left. done.
  - right. split; [lia|]. destruct b; eauto.
Qed.

Lemma binary_Read_put n d z rest :
  Buf.binary_Read n d (Binary.PutBigEndian n z ++ rest)
  = ((None, z mod 256 ^ Z.of_nat n), rest).
Proof.
  unfold Buf.binary_Read.
  pose proof (ReadFull_app (Binary.PutBigEndian n z) rest) as H.
  rewrite length_PutBigEndian in H. rewrite H.
  by rewrite BigEndian_PutBigEndian.
Qed.

Lemma stable_readKeyFields : stable readKeyFields.
Proof.
  repeat (apply stable_bind; [first [apply stable_readString | apply stable_read_uint]|intros ?]).
  apply stable_ret.
Qed.

Lemma within_readKeyFields : within readKeyFields.
Proof.
  repeat (apply within_bind; [first [apply within_readString | apply within_read_uint]|intros ?]).
  apply within_ret.
Qed.

Lemma loud_readKeyFields : loud readKeyFields.
Proof.
  repeat (apply loud_bind; [first [apply loud_readString | apply loud_read_uint]|intros ?]).
  apply loud_ret.
Qed.

Lemma stable_readValueFields : stable readValueFields.
Proof.
  repeat (apply stable_bind; [first [apply stable_readString | apply stable_read_uint]|intros ?]).
  apply stable_ret.
Qed.

Lemma within_readValueFields : within readValueFields.
Proof.
  repeat (apply within_bind; [first [apply within_readString | apply within_read_uint]|intros ?]).
  apply within_ret.
Qed.

Lemma loud_readValueFields : loud readValueFields.
Proof.
  repeat (apply loud_bind; [first [apply loud_readString | apply loud_read_uint]|intros ?]).
  apply loud_ret.
Qed.

Lemma readKeyFields_nil : ∃ e, run readKeyFields [] = (Fail (Some e), []).
Proof. by eexists. Qed.

Lemma readKeyFields_put group topic partition rest :
  Wire.fits group → Wire.fits topic →
  run readKeyFields
      (Wire.putString group ++ Wire.putString topic
         ++ Binary.PutBigEndian 4 partition ++ rest)
  = (Ok (group, topic, partition mod 2 ^ 32), rest).
Proof.
  intros Hg Ht. unfold readKeyFields.
  rewrite run_bind, readString_put by done.
  rewrite run_bind, readString_put by done.
  rewrite run_bind, read_uint_put. done.
Qed.

Lemma readValueFields_put offset metadata timestamp rest :
  Wire.fits metadata →
  run readValueFields
      (Binary.PutBigEndian 8 offset ++ Wire.putString metadata
         ++ Binary.PutBigEndian 8 timestamp ++ rest)
  = (Ok (offset mod 2 ^ 64, timestamp mod 2 ^ 64), rest).
Proof.
  intros Hm. unfold readValueFields.
  rewrite run_bind, read_uint_put.
  rewrite run_bind, readString_put by done.
  rewrite run_bind, read_uint_put. done.
Qed.

(** A key of version 0 or 1 decodes to its fields. *)
Lemma decodeKey_encode version group topic partition rest :
  version = 0 ∨ version = 1 → Wire.fits group → Wire.fits topic →
  run decodeKey (Wire.encodeKey version group topic partition ++ rest)
  = (Ok (group, topic, partition mod 2 ^ 32), rest).
Proof.
  intros Hv Hg Ht. unfold decodeKey, Wire.encodeKey. cbn [run].
  rewrite <- !app_assoc, binary_Read_put.
  change (256 ^ Z.of_nat 2) with (2 ^ 16).
  rewrite Z.mod_small by lia. rewrite decide_True by done.
  by apply readKeyFields_put.
Qed.

(** A key of any other version is rejected after its version field. *)
Lemma decodeKey_reject version rest :
  Int.is_uint16 version → version ≠ 0 → version ≠ 1 →
  run decodeKey (Binary.PutBigEndian 2 version ++ rest) = (Fail None, rest).
Proof.
  unfold Int.is_uint16. intros Hv H0 H1. unfold decodeKey. cbn [run].
  rewrite binary_Read_put.
  change (256 ^ Z.of_nat 2) with (2 ^ 16).
  rewrite Z.mod_small by lia. rewrite decide_False by lia.
  by case_decide.
Qed.

Lemma stable_decodeKey : stable decodeKey.
Proof.
  intros b a b' H ext. unfold decodeKey in *. cbn [run] in *.
  destruct (binary_Read_cases 2 0 b) as [[Hn E]|[Hn [e E]]]; rewrite E in H.
  - destruct (binary_Read_cases 2 0 (b ++ ext)) as [[Hn' E']|[Hn' _]];
      [|rewrite length_app in Hn'; lia].
    rewrite E'. rewrite take_app_le, drop_app_le by lia.
    case_decide; [by apply stable_readKeyFields|].
    case_decide; discriminate.
  - rewrite decide_True in H by (left; done).
    destruct readKeyFields_nil as [e' He']. congruence.
Qed.

Lemma within_decodeKey : within decodeKey.
Proof.
  intros b r b' H. unfold decodeKey in H. cbn [run] in H.
  destruct (binary_Read_cases 2 0 b) as [[Hn E]|[Hn [e E]]]; rewrite E in H.
  - assert (drop 2 b `suffix_of` b) by apply suffix_drop.
    case_decide; [etrans; [by eapply within_readKeyFields|done]|].
    case_decide; injection H as <- <-; done.
  - rewrite decide_True in H by (left; done).
    etrans; [by eapply within_readKeyFields | apply suffix_nil].
Qed.

(** The decoder of keys fails without an error only on a version that it
    could read and that is neither 0 nor 1. *)
Lemma decodeKey_quiet b b' :
  run decodeKey b = (Fail None, b') →
  (2 ≤ length b)%nat ∧ Binary.BigEndian (take 2 b) ≠ 0
  ∧ Binary.BigEndian (take 2 b) ≠ 1.
Proof.
  intros H. unfold decodeKey in H. cbn [run] in H.
  destruct (binary_Read_cases 2 0 b) as [[Hn E]|[Hn [e E]]]; rewrite E in H.
  - case_decide as Hd.
    + apply loud_readKeyFields in H as [? [=]].
    + split; [done|]. lia.
  - rewrite decide_True in H by (left; done).
    apply loud_readKeyFields in H as [? [=]].
Qed.

(** A value of version 0 or 1 decodes to offset and timestamp; the bytes
    after the timestamp are left unread. *)
Lemma decodeValue_encode version offset metadata timestamp rest :
  version = 0 ∨ version = 1 → Wire.fits metadata →
  run decodeValue (Wire.encodeValue version offset metadata timestamp ++ rest)
  = (Ok (offset mod 2 ^ 64, timestamp mod 2 ^ 64), rest).
Proof.
  intros Hv Hm. unfold decodeValue, Wire.encodeValue. cbn [run].
  rewrite <- !app_assoc, binary_Read_put.
  change (256 ^ Z.of_nat 2) with (2 ^ 16).
  rewrite Z.mod_small by lia.
  rewrite decide_False by (intros [?|?]; [done|lia]).
  by apply readValueFields_put.
Qed.

Lemma decodeValue_reject version rest :
  Int.is_uint16 version → version ≠ 0 → version ≠ 1 →
  run decodeValue (Binary.PutBigEndian 2 version ++ rest) = (Fail None, rest).
Proof.
  unfold Int.is_uint16. intros Hv H0 H1. unfold decodeValue. cbn [run].
  rewrite binary_Read_put.
  change (256 ^ Z.of_nat 2) with (2 ^ 16).
  rewrite Z.mod_small by lia. rewrite decide_True by (right; lia). done.
Qed.

Lemma stable_decodeValue : stable decodeValue.
Proof.
  intros b a b' H ext. unfold decodeValue in *. cbn [run] in *.
  destruct (binary_Read_cases 2 0 b) as [[Hn E]|[Hn [e E]]]; rewrite E in H.
  - destruct (binary_Read_cases 2 0 (b ++ ext)) as [[Hn' E']|[Hn' _]];
      [|rewrite length_app in Hn'; lia].
    rewrite E'. rewrite take_app_le, drop_app_le by lia.
    case_decide; [discriminate|]. by apply stable_readValueFields.
  - rewrite decide_True in H by (left; done). discriminate.
Qed.

Lemma within_decodeValue : within decodeValue.
Proof.
  intros b r b' H. unfold decodeValue in H. cbn [run] in H.
  destruct (binary_Read_cases 2 0 b) as [[Hn E]|[Hn [e E]]]; rewrite E in H.
  - assert (drop 2 b `suffix_of` b) by apply suffix_drop.
    case_decide; [injection H as <- <-; done|].
    etrans; [by eapply within_readValueFields|done].
  - rewrite decide_True in H by (left; done).
    injection H as <- <-. apply suffix_nil.
Qed.

Lemma decodeValue_quiet b b' :
  run decodeValue b = (Fail None, b') →
  (2 ≤ length b)%nat ∧ Binary.BigEndian (take 2 b) ≠ 0
  ∧ Binary.BigEndian (take 2 b) ≠ 1.
Proof.
  intros H. unfold decodeValue in H. cbn [run] in H.
  destruct (binary_Read_cases 2 0 b) as [[Hn E]|[Hn [e E]]]; rewrite E in H.
  - case_decide as Hd.
    + split; [done|]. destruct Hd as [?|?]; [done|lia].
    + apply loud_readValueFields in H as [? [=]].
  - rewrite decide_True in H by (left; done). discriminate.
Qed.

End Decoders.

(** ** The consumer offset table *)

Section Tables.

(** What [storeConsumerOffset] leaves in the table, in one expression. *)
Lemma storeConsumerOffset_store newOffset qsm :
  let s0 := ConsumerOffsetStore qsm in
  let gbody := default ∅ (s0 !! Group newOffset) in
  let tbody := default ∅ (gbody !! Topic newOffset) in
  ConsumerOffsetStore (storeConsumerOffset newOffset qsm)
  = <[Group newOffset :=
        <[Topic newOffset :=
            <[Partition newOffset := Offset newOffset]> tbody]> gbody]> s0.
Proof.
  unfold storeConsumerOffset. cbn [ConsumerOffsetStore set_ConsumerOffsetStore].
  cbv zeta.
  destruct (ConsumerOffsetStore qsm !! Group newOffset) as [gbody|] eqn:Eg;
    cbv beta iota.
  - rewrite Eg. cbn [from_option id].
    destruct (gbody !! Topic newOffset) as [tbody|] eqn:Et; cbv beta iota.
    + rewrite Eg. cbn [from_option id]. by rewrite Et.
    + rewrite lookup_insert_eq. cbn [from_option id].
      rewrite lookup_insert_eq. cbn [from_option id].
      by rewrite insert_insert_eq, insert_insert_eq.
  - rewrite lookup_insert_eq. cbn [from_option id]. rewrite lookup_empty.
    rewrite lookup_insert_eq. cbn [from_option id].
    rewrite lookup_insert_eq. cbn [from_option id].
    by rewrite !insert_insert_eq.
Qed.

Lemma lookup_gtp_insert (s : GTPOffsetMap) g t p o g' t' p' :
  lookup_gtp
    (<[g := <[t := <[p := o]> (default ∅ (default ∅ (s !! g) !! t))]>
              (default ∅ (s !! g))]> s) g' t' p'
  = if decide (g' = g ∧ t' = t ∧ p' = p) then Some o else lookup_gtp s g' t' p'.
Proof.
  unfold lookup_gtp, lookup_tp.
  destruct (decide (g' = g)) as [->|Hg].
  - rewrite lookup_insert_eq. cbn [mbind option_bind].
    destruct (decide (t' = t)) as [->|Ht].
    + rewrite lookup_insert_eq. cbn [mbind option_bind].
      destruct (decide (p' = p)) as [->|Hp].
      * rewrite lookup_insert_eq. by rewrite decide_True.
      * rewrite lookup_insert_ne by done. rewrite decide_False by tauto.
        destruct (s !! g) as [gb|]; cbn; [|done].
        destruct (gb !! t); cbn; done.
    + rewrite lookup_insert_ne by done. rewrite decide_False by tauto.
      destruct (s !! g) as [gb|]; cbn; done.
  - rewrite lookup_insert_ne by done. by rewrite decide_False by tauto.
Qed.

(** After an upsert, [lookup] answers the new offset at the key of the
    upsert and what it answered before at every other key. *)
Lemma lookup_storeConsumerOffset newOffset qsm group topic partition :
  lookup_gtp (ConsumerOffsetStore (storeConsumerOffset newOffset qsm))
    group topic partition
  = if decide (group = Group newOffset ∧ topic = Topic newOffset
               ∧ partition = Partition newOffset)
    then Some (Offset newOffset)
    else lookup_gtp (ConsumerOffsetStore qsm) group topic partition.
Proof.
  rewrite storeConsumerOffset_store. cbv zeta. apply lookup_gtp_insert.
Qed.

Lemma storeConsumerOffset_other newOffset qsm :
  Client (storeConsumerOffset newOffset qsm) = Client qsm
  ∧ BrokerOffsetStore (storeConsumerOffset newOffset qsm) = BrokerOffsetStore qsm
  ∧ StatsdClient (storeConsumerOffset newOffset qsm) = StatsdClient qsm
  ∧ StatsdCfg (storeConsumerOffset newOffset qsm) = StatsdCfg qsm.
Proof. done. Qed.

Lemma index_gtp_lookup (m : GTPOffsetMap) group topic partition :
  index_gtp m group topic partition
  = default 0 (lookup_gtp m group topic partition).
Proof.
  unfold index_gtp, index_tp, lookup_gtp, lookup_tp.
  destruct (m !! group) as [gb|]; cbn; [|done].
  destruct (gb !! topic); cbn; done.
Qed.

Lemma index_tp_lookup (m : TPOffsetMap) topic partition :
  index_tp m topic partition = default 0 (lookup_tp m topic partition).
Proof.
  unfold index_tp, lookup_tp. destruct (m !! topic); cbn; done.
Qed.

End Tables.

(** C7. Upserting the same (group, topic, partition) with offset [o1] and
    then with [o2] leaves [lookup] answering [o2]: the second write
    overwrites the first without condition, and the table is the one that
    the second write alone would have produced, so the key has one entry
    and it holds the most recent write. *)
Theorem upsert_overwrites (qsm : QueueSizeMonitor) (group topic : string)
    (partition o1 o2 ts1 ts2 : Z) :
  let first := {| Topic := topic; Partition := partition; Offset := o1;
                  Timestamp := ts1; Group := group |} in
  let second := {| Topic := topic; Partition := partition; Offset := o2;
                   Timestamp := ts2; Group := group |} in
  let qsm2 := storeConsumerOffset second (storeConsumerOffset first qsm) in
  lookup_gtp (ConsumerOffsetStore qsm2) group topic partition = Some o2
  ∧ ConsumerOffsetStore qsm2 = ConsumerOffsetStore (storeConsumerOffset second qsm).
Proof.
  cbv zeta. split.
  - rewrite lookup_storeConsumerOffset. by rewrite decide_True.
  - rewrite !storeConsumerOffset_store. cbv zeta. cbn [Group Topic Partition Offset].
    rewrite lookup_insert_eq. cbn [from_option id].
    rewrite lookup_insert_eq. cbn [from_option id].
    by rewrite !insert_insert_eq.
Qed.

(** ** The parser *)

Section Parser.

(** A stable reader that consumes all of a buffer fails on each of its
    truncations. *)
Lemma truncated_fails {A} (m : Dec A) full a b :
  stable m → run m full = (Ok a, []) → Wire.truncated b full →
  ∃ e b', run m b = (Fail e, b').
Proof.
  intros Hm Hfull [[k ->] Hne].
  destruct (run m b) as [[a'|e] b'] eqn:E; [|eauto].
  rewrite (Hm _ _ _ E k) in Hfull. injection Hfull as _ Hnil.
  apply app_eq_nil in Hnil as [_ ->]. rewrite app_nil_r in Hne. done.
Qed.

Lemma truncated_version b version tail :
  Int.is_uint16 version →
  Wire.truncated b (Binary.PutBigEndian 2 version ++ tail) →
  (2 ≤ length b)%nat → Binary.BigEndian (take 2 b) = version.
Proof.
  unfold Int.is_uint16. intros Hv [[k Hk] _] Hl.
  assert (take 2 b = Binary.PutBigEndian 2 version) as ->.
  { rewrite <- (take_app_le b k) by done. rewrite <- Hk.
    rewrite take_app_length'; [done | by rewrite length_PutBigEndian]. }
  rewrite BigEndian_PutBigEndian.
  change (256 ^ Z.of_nat 2) with (2 ^ 16). apply Z.mod_small. lia.
Qed.

Lemma truncated_key version group topic partition b :
  version = 0 ∨ version = 1 → Wire.fits group → Wire.fits topic →
  Wire.truncated b (Wire.encodeKey version group topic partition) →
  ∃ e b', run decodeKey b = (Fail (Some e), b') ∧ b' `suffix_of` b.
Proof.
  intros Hv Hg Ht Hb.
  pose proof (decodeKey_encode version group topic partition [] Hv Hg Ht) as Hfull.
  rewrite app_nil_r in Hfull.
  destruct (truncated_fails _ _ _ _ stable_decodeKey Hfull Hb) as (e & b' & E).
  pose proof (within_decodeKey _ _ _ E) as Hsuf.
  destruct e as [e|]; [eauto|].
  apply decodeKey_quiet in E as (Hl & H0 & H1).
  unfold Wire.encodeKey in Hb.
  assert (Int.is_uint16 version) as Hu by (unfold Int.is_uint16; lia).
  pose proof (truncated_version _ _ _ Hu Hb Hl) as Hver. lia.
Qed.

Lemma truncated_value version offset metadata timestamp b :
  version = 0 ∨ version = 1 → Wire.fits metadata →
  Wire.truncated b (Wire.encodeValue version offset metadata timestamp) →
  ∃ e b', run decodeValue b = (Fail (Some e), b') ∧ b' `suffix_of` b.
Proof.
  intros Hv Hm Hb.
  pose proof (decodeValue_encode version offset metadata timestamp [] Hv Hm)
    as Hfull.
  rewrite app_nil_r in Hfull.
  destruct (truncated_fails _ _ _ _ stable_decodeValue Hfull Hb) as (e & b' & E).
  pose proof (within_decodeValue _ _ _ E) as Hsuf.
  destruct e as [e|]; [eauto|].
  apply decodeValue_quiet in E as (Hl & H0 & H1).
  unfold Wire.encodeValue in Hb.
  assert (Int.is_uint16 version) as Hu by (unfold Int.is_uint16; lia).
  pose proof (truncated_version _ _ _ Hu Hb Hl) as Hver. lia.
Qed.

(** The parser fails exactly when one of the two decoders does, with the
    error of the first that fails. *)
Lemma parseMessage_Fail message err :
  parseMessage message = Fail err ↔
  (∃ b', run decodeKey (sarama.Key message) = (Fail err, b'))
  ∨ (∃ k bk b', run decodeKey (sarama.Key message) = (Ok k, bk)
                ∧ run decodeValue (sarama.Value message) = (Fail err, b')).
Proof.
  unfold parseMessage.
  destruct (run decodeKey (sarama.Key message)) as [[[[g t] p]|e] bk].
  - destruct (run decodeValue (sarama.Value message)) as [[[o ts]|e] bv].
    + split; [done|]. intros [[? [=]]|(? & ? & ? & _ & [=])].
    + split.
      * intros [= ->]. right. eauto.
      * intros [[? [=]]|(? & ? & ? & _ & [= -> _])]. done.
  - split.
    + intros [= ->]. left. eauto.
    + intros [[? [= -> _]]|(? & ? & ? & [=] & _)]. done.
Qed.

Lemma parseMessage_Ok message group topic partition bk offset timestamp bv :
  run decodeKey (sarama.Key message) = (Ok (group, topic, partition), bk) →
  run decodeValue (sarama.Value message) = (Ok (offset, timestamp), bv) →
  parseMessage message
  = Ok {| Topic := topic; Partition := Int.to_int32 partition;
          Offset := Int.to_int64 offset; Timestamp := Int.to_int64 timestamp;
          Group := group |}.
Proof. unfold parseMessage. by intros -> ->. Qed.

(** A failed parse leaves the monitor as it was and logs the error. *)
Lemma formatConsumerOffsetMessage_Fail message qsm err :
  parseMessage message = Fail err →
  formatConsumerOffsetMessage message qsm = (qsm, [LogParseError err]).
Proof. unfold formatConsumerOffsetMessage. by intros ->. Qed.

Lemma formatConsumerOffsetMessage_Ok message qsm partitionOffset :
  parseMessage message = Ok partitionOffset →
  formatConsumerOffsetMessage message qsm
  = (storeConsumerOffset partitionOffset qsm, []).
Proof. unfold formatConsumerOffsetMessage. by intros ->. Qed.

(** The parser on a record built to the layout. *)
Lemma parseMessage_encode kver group topic partition vver offset metadata
    timestamp :
  kver = 0 ∨ kver = 1 → vver = 0 ∨ vver = 1 →
  Wire.fits group → Wire.fits topic → Wire.fits metadata →
  Int.is_int32 partition → Int.is_int64 offset → Int.is_int64 timestamp →
  parseMessage
    {| sarama.Key := Wire.encodeKey kver group topic partition;
       sarama.Value := Wire.encodeValue vver offset metadata timestamp |}
  = Ok {| Topic := topic; Partition := partition; Offset := offset;
          Timestamp := timestamp; Group := group |}.
Proof.
  intros Hk Hv Hg Ht Hm Hp Ho Hts.
  pose proof (decodeKey_encode kver group topic partition [] Hk Hg Ht) as EK.
  pose proof (decodeValue_encode vver offset metadata timestamp [] Hv Hm) as EV.
  rewrite app_nil_r in EK, EV.
  etrans; [eapply parseMessage_Ok; [exact EK | exact EV]|].
  by rewrite to_int32_wrap, !to_int64_wrap.
Qed.

End Parser.

(** C2. A commit key of version 0 or 1 built to the key layout decodes to
    the group, the topic and the partition it was built from (the partition
    is read as an unsigned 32-bit integer and converted back to the signed
    one), and a record with that key and a value that decodes is upserted
    under exactly that (group, topic, partition).  A key whose version
    field holds any other value, 2 included, is rejected after the version
    field: the monitor is returned unchanged, so nothing is upserted.  The
    decoder is a total function: no input makes it throw. *)
Theorem key_round_trip (version : Z) (group topic : string) (partition : Z) :
  Int.is_uint16 version → Wire.fits group → Wire.fits topic →
  Int.is_int32 partition →
  (version = 0 ∨ version = 1 →
     run decodeKey (Wire.encodeKey version group topic partition)
     = (Ok (group, topic, partition mod 2 ^ 32), [])
     ∧ Int.to_int32 (partition mod 2 ^ 32) = partition
     ∧ ∀ value offset timestamp rest qsm,
         run decodeValue value = (Ok (offset, timestamp), rest) →
         formatConsumerOffsetMessage
           {| sarama.Key := Wire.encodeKey version group topic partition;
              sarama.Value := value |} qsm
         = (storeConsumerOffset
              {| Topic := topic; Partition := partition;
                 Offset := Int.to_int64 offset;
                 Timestamp := Int.to_int64 timestamp; Group := group |} qsm,
            []))
  ∧ (version ≠ 0 ∧ version ≠ 1 →
     ∀ rest value qsm,
       run decodeKey (Binary.PutBigEndian 2 version ++ rest) = (Fail None, rest)
       ∧ formatConsumerOffsetMessage
           {| sarama.Key := Binary.PutBigEndian 2 version ++ rest;
              sarama.Value := value |} qsm
         = (qsm, [LogParseError None])).
Proof.
  intros Hv Hg Ht Hp. split.
  - intros Hver.
    pose proof (decodeKey_encode version group topic partition [] Hver Hg Ht) as EK.
    rewrite app_nil_r in EK.
    split; [done|]. split; [by apply to_int32_wrap|].
    intros value offset timestamp rest qsm EV.
    apply formatConsumerOffsetMessage_Ok.
    etrans; [eapply parseMessage_Ok; [exact EK | exact EV]|].
    by rewrite to_int32_wrap.
  - intros [H0 H1] rest value qsm.
    pose proof (decodeKey_reject version rest Hv H0 H1) as EK.
    split; [done|].
    apply formatConsumerOffsetMessage_Fail, parseMessage_Fail. left. eauto.
Qed.

Lemma key_round_trip_witness :
  run decodeKey (Wire.encodeKey 1 "g" "t" (-7)) = (Ok ("g", "t", (-7) mod 2 ^ 32), [])
  ∧ run decodeKey (Binary.PutBigEndian 2 2 ++ [x2a]) = (Fail None, [x2a]).
Proof.
  assert (Int.is_uint16 1 ∧ Int.is_uint16 2) as [U1 U2]
    by (unfold Int.is_uint16; lia).
  assert (Int.is_int32 (-7)) as I7 by (unfold Int.is_int32; lia).
  assert (Wire.fits "g" ∧ Wire.fits "t") as [Fg Ft]
    by (unfold Wire.fits; simpl; lia).
  split.
  - apply (key_round_trip 1 "g" "t" (-7) U1 Fg Ft I7). right. reflexivity.
  - refine (proj1 (proj2 (key_round_trip 2 "g" "t" (-7) U2 Fg Ft I7) _ [x2a] [] _)).
    + lia.
    + exact Sample.monitor.
Defined.

(** C3. Take a commit key, or a commit value, of version 0 or 1 built to
    the layout and cut it at any byte boundary before its end.  The decoder
    fails on it with an error ([io.EOF], [io.ErrUnexpectedEOF] or the
    string underflow), what it leaves of the buffer is a suffix of the
    buffer (every byte it read is a byte of the buffer), and the parser
    logs that error and returns the monitor unchanged.  The readers are
    total functions of the buffer: there is no index expression that could
    panic. *)
Theorem truncation_safety (kver : Z) (group topic : string) (partition : Z)
    (vver offset : Z) (metadata : string) (timestamp : Z) (b : list byte) :
  kver = 0 ∨ kver = 1 → vver = 0 ∨ vver = 1 →
  Wire.fits group → Wire.fits topic → Wire.fits metadata →
  (Wire.truncated b (Wire.encodeKey kver group topic partition) →
     ∃ e b', run decodeKey b = (Fail (Some e), b') ∧ b' `suffix_of` b
       ∧ ∀ value qsm,
           formatConsumerOffsetMessage
             {| sarama.Key := b; sarama.Value := value |} qsm
           = (qsm, [LogParseError (Some e)]))
  ∧ (Wire.truncated b (Wire.encodeValue vver offset metadata timestamp) →
     ∃ e b', run decodeValue b = (Fail (Some e), b') ∧ b' `suffix_of` b
       ∧ ∀ qsm,
           formatConsumerOffsetMessage
             {| sarama.Key := Wire.encodeKey kver group topic partition;
                sarama.Value := b |} qsm
           = (qsm, [LogParseError (Some e)])).
Proof.
  intros Hk Hv Hg Ht Hm. split; intros Hb.
  - destruct (truncated_key _ _ _ _ _ Hk Hg Ht Hb) as (e & b' & E & Hsuf).
    exists e, b'. split; [done|]. split; [done|]. intros value qsm.
    apply formatConsumerOffsetMessage_Fail, parseMessage_Fail. left. eauto.
  - destruct (truncated_value _ _ _ _ _ Hv Hm Hb) as (e & b' & E & Hsuf).
    exists e, b'. split; [done|]. split; [done|]. intros qsm.
    apply formatConsumerOffsetMessage_Fail, parseMessage_Fail. right.
    pose proof (decodeKey_encode kver group topic partition [] Hk Hg Ht) as EK.
    rewrite app_nil_r in EK. eauto.
Qed.

Lemma truncation_safety_witness :
  (∃ e b', run decodeKey (take 5 (Wire.encodeKey 1 "g" "t" 3))
           = (Fail (Some e), b'))
  ∧ (∃ e b', run decodeValue (take 13 (Wire.encodeValue 1 50 "md" 99))
             = (Fail (Some e), b')).
Proof.
  assert (Wire.fits "g" ∧ Wire.fits "t" ∧ Wire.fits "md") as (Fg & Ft & Fm)
    by (unfold Wire.fits; simpl; lia).
  pose proof (truncation_safety 1 "g" "t" 3 1 50 "md" 99
                (take 5 (Wire.encodeKey 1 "g" "t" 3))
                (or_intror eq_refl) (or_intror eq_refl) Fg Ft Fm) as [HK _].
  pose proof (truncation_safety 1 "g" "t" 3 1 50 "md" 99
                (take 13 (Wire.encodeValue 1 50 "md" 99))
                (or_intror eq_refl) (or_intror eq_refl) Fg Ft Fm) as [_ HV].
  split.
  - destruct HK as (e & b' & E & _).
    + split; [apply prefix_take | vm_compute; discriminate].
    + eauto.
  - destruct HV as (e & b' & E & _).
    + split; [apply prefix_take | vm_compute; discriminate].
    + eauto.
Defined.

(** C8. The decoder of commit values accepts versions 0 and 1 only: a
    value whose version field holds another value is rejected and the
    monitor is returned unchanged.  For both accepted versions it reads the
    same fields, an eight-byte offset, a length-prefixed metadata string
    (dropped) and an eight-byte commit timestamp, and stops there: the
    bytes [rest] after the timestamp are left unread, for version 1 as for
    version 0, and the result does not depend on them. *)
Theorem value_fields (version offset : Z) (metadata : string) (timestamp : Z)
    (rest : list byte) :
  Int.is_uint16 version → Wire.fits metadata →
  (version = 0 ∨ version = 1 →
     run decodeValue (Wire.encodeValue version offset metadata timestamp ++ rest)
     = (Ok (offset mod 2 ^ 64, timestamp mod 2 ^ 64), rest))
  ∧ (version ≠ 0 ∧ version ≠ 1 →
     run decodeValue (Binary.PutBigEndian 2 version ++ rest) = (Fail None, rest)
     ∧ ∀ key qsm,
         (formatConsumerOffsetMessage
            {| sarama.Key := key;
               sarama.Value := Binary.PutBigEndian 2 version ++ rest |} qsm).1
         = qsm).
Proof.
  intros Hv Hm. split.
  - intros Hver. by apply decodeValue_encode.
  - intros [H0 H1].
    pose proof (decodeValue_reject version rest Hv H0 H1) as EV.
    split; [done|]. intros key qsm.
    destruct (run decodeKey key) as [[k|e] bk] eqn:EK.
    + erewrite formatConsumerOffsetMessage_Fail; [done|].
      apply parseMessage_Fail. right. cbn [sarama.Key sarama.Value]. eauto.
    + erewrite formatConsumerOffsetMessage_Fail; [done|].
      apply parseMessage_Fail. left. cbn [sarama.Key]. eauto.
Qed.

Lemma value_fields_witness :
  run decodeValue (Wire.encodeValue 1 50 "md" 99 ++ [x00; x00; x00; x07])
  = (Ok (50 mod 2 ^ 64, 99 mod 2 ^ 64), [x00; x00; x00; x07])
  ∧ run decodeValue (Binary.PutBigEndian 2 3 ++ []) = (Fail None, []).
Proof.
  assert (Int.is_uint16 1 ∧ Int.is_uint16 3) as [U1 U3]
    by (unfold Int.is_uint16; lia).
  assert (Wire.fits "md") as Fm by (unfold Wire.fits; simpl; lia).
  split.
  - apply (value_fields 1 50 "md" 99 [x00; x00; x00; x07] U1 Fm).
    right. reflexivity.
  - apply (value_fields 3 50 "md" 99 [] U3 Fm). lia.
Defined.

(** C10. When the key or the value of a record fails to decode, wherever
    it fails (version, string, fixed-width field), processing the record
    returns the monitor as it was, the consumer offset table included, and
    logs one parse error: the upsert is reached only after both buffers
    have decoded to the end. *)
Theorem failed_record_leaves_table (message : sarama.ConsumerMessage)
    (qsm : QueueSizeMonitor) :
  (∃ err b', run decodeKey (sarama.Key message) = (Fail err, b'))
  ∨ (∃ err b', run decodeValue (sarama.Value message) = (Fail err, b')) →
  (formatConsumerOffsetMessage message qsm).1 = qsm
  ∧ ConsumerOffsetStore (formatConsumerOffsetMessage message qsm).1
    = ConsumerOffsetStore qsm
  ∧ ∃ err, (formatConsumerOffsetMessage message qsm).2 = [LogParseError err].
Proof.
  intros H.
  assert (∃ err, parseMessage message = Fail err) as [err Herr].
  { destruct H as [(err & b' & E)|(err & b' & E)].
    - exists err. apply parseMessage_Fail. left. eauto.
    - destruct (run decodeKey (sarama.Key message)) as [[k|e] bk] eqn:EK.
      + exists err. apply parseMessage_Fail. right. eauto.
      + exists e. apply parseMessage_Fail. left. eauto. }
  rewrite (formatConsumerOffsetMessage_Fail _ _ _ Herr). cbn [fst snd]. eauto.
Qed.

Lemma failed_record_leaves_table_witness :
  (formatConsumerOffsetMessage
     {| sarama.Key := Wire.encodeKey 1 "g" "t" 3; sarama.Value := [x00; x01; xff] |}
     Sample.monitor).1 = Sample.monitor.
Proof.
  apply failed_record_leaves_table. right.
  exists (Some ErrUnexpectedEOF), []. reflexivity.
Defined.

(** ** The reporter *)

Section Reporter.

Variable qsm : QueueSizeMonitor.
Variable brokerOffsetMap : TPOffsetMap.
Variable consumerOffsetMap : GTPOffsetMap.

(** The loops of [computeLag] run the body once for every entry of the
    consumer table, and for nothing else. *)
Lemma elem_of_computeLag e :
  e ∈ computeLag qsm brokerOffsetMap consumerOffsetMap ↔
  ∃ group topic partition c,
    lookup_gtp consumerOffsetMap group topic partition = Some c
    ∧ e ∈ computeLag_body qsm brokerOffsetMap consumerOffsetMap
            group topic partition.
Proof.
  unfold computeLag, lookup_gtp, lookup_tp. split.
  - intros H.
    apply list_elem_of_bind in H as ([g gbody] & H & Hg).
    apply list_elem_of_bind in H as ([t tbody] & H & Ht).
    apply list_elem_of_bind in H as ([p c] & H & Hp).
    apply elem_of_map_to_list in Hg, Ht, Hp.
    exists g, t, p, c. rewrite Hg. cbn. rewrite Ht. cbn. done.
  - intros (g & t & p & c & Hc & H).
    destruct (consumerOffsetMap !! g) as [gbody|] eqn:Hg; [|done].
    cbn in Hc. destruct (gbody !! t) as [tbody|] eqn:Ht; [|done].
    cbn in Hc.
    apply list_elem_of_bind. exists (g, gbody).
    split; [|by apply elem_of_map_to_list].
    apply list_elem_of_bind. exists (t, tbody).
    split; [|by apply elem_of_map_to_list].
    apply list_elem_of_bind. exists (p, c).
    split; [done | by apply elem_of_map_to_list].
Qed.

Lemma elem_of_sendGaugeToStatsd stat value s v :
  SendGauge s v ∈ sendGaugeToStatsd qsm stat value →
  s = stat ∧ v = value.
Proof.
  unfold sendGaugeToStatsd. destruct (StatsdClient qsm) as [client|].
  - destruct (statsd.Gauge client stat value); cbn [app].
    + rewrite !elem_of_cons, elem_of_nil. intros [[= -> ->]|[[=]|[[=]|[]]]]. done.
    + rewrite !elem_of_cons, elem_of_nil. intros [[= -> ->]|[[=]|[]]]. done.
  - rewrite elem_of_cons, elem_of_nil. intros [[=]|[]].
Qed.

Lemma sendGaugeToStatsd_sends client stat value :
  StatsdClient qsm = Some client →
  SendGauge stat value ∈ sendGaugeToStatsd qsm stat value.
Proof. unfold sendGaugeToStatsd. intros ->. apply list_elem_of_here. Qed.

(** The gauges that one run of the body sends. *)
Lemma elem_of_computeLag_body_gauge group topic partition s v :
  SendGauge s v ∈ computeLag_body qsm brokerOffsetMap consumerOffsetMap
                    group topic partition →
  s = statName (Prefix (StatsdCfg qsm)) group topic partition
  ∧ v = Int.sub64 (index_tp brokerOffsetMap topic partition)
                  (index_gtp consumerOffsetMap group topic partition)
  ∧ 0 ≤ v.
Proof.
  unfold computeLag_body. cbv zeta. case_decide as Hlag.
  - rewrite elem_of_cons, elem_of_nil. intros [[=]|[]].
  - rewrite elem_of_app, elem_of_cons, elem_of_nil.
    intros [H|[[=]|[]]].
    apply elem_of_sendGaugeToStatsd in H as [-> ->]. split; [done|]. split; [done|lia].
Qed.


End Reporter.

(** C4. For every (group, topic, partition) of the consumer offset table,
    with consumer offset [c], the reporter computes the lag as the broker
    offset of (topic, partition), 0 when the broker table has no entry for
    it, minus [c], in Go's [int64] subtraction, and reports that value: in
    the negative-lag diagnostic when it is negative, in the gauge's log
    block otherwise.  The subtraction is the integer difference whenever
    that difference is an [int64], as it is for all non-negative offsets:
    broker offset 110 and consumer offset 100 give 10. *)
Theorem lag_arithmetic (qsm : QueueSizeMonitor) (brokerOffsetMap : TPOffsetMap)
    (consumerOffsetMap : GTPOffsetMap) (group topic : string) (partition c : Z) :
  lookup_gtp consumerOffsetMap group topic partition = Some c →
  let b := default 0 (lookup_tp brokerOffsetMap topic partition) in
  let lag := Int.sub64 b c in
  let stat := statName (Prefix (StatsdCfg qsm)) group topic partition in
  (if decide (lag < 0) then LogNegativeLag stat lag
   else LogLag topic partition b c lag group)
    ∈ computeLag qsm brokerOffsetMap consumerOffsetMap
  ∧ (Int.is_int64 (b - c) → lag = b - c)
  ∧ (0 ≤ b < 2 ^ 63 → 0 ≤ c < 2 ^ 63 → lag = b - c).
Proof.
  intros Hc. cbv zeta. split; [|split].
  - apply elem_of_computeLag. exists group, topic, partition, c.
    split; [done|]. unfold computeLag_body. cbv zeta.
    rewrite index_gtp_lookup, index_tp_lookup, Hc. cbn [from_option id].
    case_decide.
    + apply list_elem_of_here.
    + apply elem_of_app. right. apply list_elem_of_here.
  - apply sub64_exact.
  - apply sub64_nonneg_offsets.
Qed.

Lemma lag_arithmetic_witness :
  LogLag "t" 0 110 100 10 "g"
    ∈ computeLag Sample.monitor
        (BrokerOffsetStore
           (storeBrokerOffset (Sample.brokerOffset "t" 0 110) Sample.monitor))
        (ConsumerOffsetStore
           (storeConsumerOffset (Sample.offset "g" "t" 0 100) Sample.monitor)).
Proof.
  assert (lookup_gtp
            (ConsumerOffsetStore
               (storeConsumerOffset (Sample.offset "g" "t" 0 100) Sample.monitor))
            "g" "t" 0 = Some 100) as Hc by (vm_compute; reflexivity).
  exact (proj1 (lag_arithmetic Sample.monitor
                  (BrokerOffsetStore
                     (storeBrokerOffset (Sample.brokerOffset "t" 0 110) Sample.monitor))
                  _ "g" "t" 0 100 Hc)).
Defined.

(** A monitor that [NewQueueSizeMonitor] returns has its Statsd client. *)
Lemma NewQueueSizeMonitor_client client statsdClient socket statsdCfg qsm :
  NewQueueSizeMonitor client statsdClient socket statsdCfg = Some qsm →
  StatsdClient qsm = Some statsdClient
  ∧ ConsumerOffsetStore qsm = ∅ ∧ BrokerOffsetStore qsm = ∅.
Proof.
  unfold NewQueueSizeMonitor. destruct client; [|done].
  destruct socket; [|done]. by intros [= <-].
Qed.

(** The verb [%d] prints the sign and the decimal digits. *)
Example fmt_d_examples :
  fmt_d 0 = "0" ∧ fmt_d 12 = "12" ∧ fmt_d (-7) = "-7"
  ∧ fmt_d 2147483647 = "2147483647".
Proof. repeat split; vm_compute; reflexivity. Qed.

(** C5. With the Statsd client in place (the constructor of the monitor
    always installs one), the gauges that the reporter sends are exactly
    those of the entries of the consumer offset table whose computed lag is
    not negative: each such entry has its gauge sent, with the lag as
    value, and every gauge sent is the gauge of such an entry.  For an
    entry whose computed lag is negative the loop body only logs the
    negative-lag diagnostic and sends nothing. *)
Theorem negative_lag_dropped (qsm : QueueSizeMonitor) (client : statsd.StatsdClient)
    (brokerOffsetMap : TPOffsetMap) (consumerOffsetMap : GTPOffsetMap) :
  StatsdClient qsm = Some client →
  (∀ stat v,
     SendGauge stat v ∈ computeLag qsm brokerOffsetMap consumerOffsetMap ↔
     ∃ group topic partition c,
       lookup_gtp consumerOffsetMap group topic partition = Some c
       ∧ stat = statName (Prefix (StatsdCfg qsm)) group topic partition
       ∧ v = Int.sub64 (default 0 (lookup_tp brokerOffsetMap topic partition)) c
       ∧ 0 ≤ v)
  ∧ (∀ group topic partition c,
       lookup_gtp consumerOffsetMap group topic partition = Some c →
       let lag :=
         Int.sub64 (default 0 (lookup_tp brokerOffsetMap topic partition)) c in
       let stat := statName (Prefix (StatsdCfg qsm)) group topic partition in
       lag < 0 →
       computeLag_body qsm brokerOffsetMap consumerOffsetMap group topic partition
       = [LogNegativeLag stat lag]
       ∧ LogNegativeLag stat lag
           ∈ computeLag qsm brokerOffsetMap consumerOffsetMap).
Proof.
  intros Hclient. split.
  - intros stat v. rewrite elem_of_computeLag. split.
    + intros (g & t & p & c & Hc & H).
      apply elem_of_computeLag_body_gauge in H as (-> & -> & Hv).
      exists g, t, p, c.
      rewrite index_gtp_lookup, index_tp_lookup, Hc in *. done.
    + intros (g & t & p & c & Hc & -> & -> & Hv).
      exists g, t, p, c. split; [done|].
      unfold computeLag_body. cbv zeta.
      rewrite index_gtp_lookup, index_tp_lookup, Hc. cbn [from_option id].
      rewrite decide_False by lia.
      apply elem_of_app. left. by eapply sendGaugeToStatsd_sends.
  - intros g t p c Hc lag stat Hlag.
    assert (computeLag_body qsm brokerOffsetMap consumerOffsetMap g t p
            = [LogNegativeLag stat lag]) as Hbody.
    { unfold computeLag_body. cbv zeta.
      rewrite index_gtp_lookup, index_tp_lookup, Hc. cbn [from_option id].
      by rewrite decide_True. }
    split; [done|].
    apply elem_of_computeLag. exists g, t, p, c. split; [done|].
    rewrite Hbody. apply list_elem_of_here.
Qed.

Lemma negative_lag_dropped_witness :
  LogNegativeLag "kqm.group.g.t.0" (-10)
    ∈ computeLag Sample.monitor
        (BrokerOffsetStore
           (storeBrokerOffset (Sample.brokerOffset "t" 0 90) Sample.monitor))
        (ConsumerOffsetStore
           (storeConsumerOffset (Sample.offset "g" "t" 0 100) Sample.monitor))
  ∧ SendGauge "kqm.group.g.t.0" 10
      ∈ computeLag Sample.monitor
          (BrokerOffsetStore
             (storeBrokerOffset (Sample.brokerOffset "t" 0 110) Sample.monitor))
          (ConsumerOffsetStore
             (storeConsumerOffset (Sample.offset "g" "t" 0 100) Sample.monitor)).
Proof.
  assert (lookup_gtp
            (ConsumerOffsetStore
               (storeConsumerOffset (Sample.offset "g" "t" 0 100) Sample.monitor))
            "g" "t" 0 = Some 100) as Hc by (vm_compute; reflexivity).
  split.
  - refine (proj2 (proj2 (negative_lag_dropped Sample.monitor _
                            (BrokerOffsetStore
                               (storeBrokerOffset (Sample.brokerOffset "t" 0 90)
                                  Sample.monitor))
                            _ eq_refl) "g" "t" 0 100 Hc _)).
    vm_compute. reflexivity.
  - apply (proj1 (negative_lag_dropped Sample.monitor _
                    (BrokerOffsetStore
                       (storeBrokerOffset (Sample.brokerOffset "t" 0 110)
                          Sample.monitor))
                    _ eq_refl)).
    exists "g", "t", 0, 100. split; [exact Hc|].
    split; [reflexivity|]. split; [reflexivity | vm_compute; discriminate].
Defined.

(** ** The numeral that [%d] prints *)

Section StatNames.

Lemma append_assoc (a b c : string) : (a +:+ b) +:+ c = a +:+ b +:+ c.
Proof.
  induction a as [|x a IH]; [done|].
  change (String x ((a +:+ b) +:+ c) = String x (a +:+ b +:+ c)). by rewrite IH.
Qed.






End StatNames.



(** ** The snapshot of topics and partitions *)

Section Snapshot.

Lemma getTopicsAndPartitions_fold offsetStore :
  getTopicsAndPartitions offsetStore = foldl stepG ∅ (map_to_list offsetStore).
Proof. reflexivity. Qed.

Lemma foldl_stepP topic (l : list (Z * Z)) tpMap t :
  index_slice (foldl (stepP topic) tpMap l) t
  = index_slice tpMap t ++ (if decide (t = topic) then l.*1 else []).
Proof.
  unfold index_slice. revert tpMap.
  induction l as [|[p c] l IH]; intros tpMap.
  - cbn [foldl]. case_decide; by rewrite app_nil_r.
  - cbn [foldl]. rewrite IH. unfold stepP.
    case_decide as Ht.
    + subst t. rewrite lookup_insert_eq. cbn [from_option id fmap list_fmap fst].
      by rewrite <- app_assoc.
    + rewrite lookup_insert_ne by done. done.
Qed.

Lemma foldl_stepT (l : list (string * gmap Z Z)) tpMap t :
  index_slice (foldl stepT tpMap l) t
  = index_slice tpMap t
    ++ (l ≫= λ tb, if decide (t = tb.1) then (map_to_list tb.2).*1 else []).
Proof.
  revert tpMap. induction l as [|[topic tbody] l IH]; intros tpMap.
  - cbn. by rewrite app_nil_r.
  - cbn [foldl]. rewrite IH. unfold stepT. rewrite foldl_stepP.
    rewrite bind_cons. cbn [fst snd]. by rewrite <- app_assoc.
Qed.

(** In a list with distinct keys, a selection by key picks one element. *)
Lemma bind_select {V B} (l : list (string * V)) (f : V → list B) t :
  NoDup l.*1 →
  (l ≫= λ kv, if decide (t = kv.1) then f kv.2 else [])
  = match list_find (λ kv, t = kv.1) l with
    | Some (_, kv) => f kv.2
    | None => []
    end.
Proof.
  induction l as [|[k v] l IH]; intros Hnd; [done|].
  apply NoDup_cons in Hnd as [Hk Hnd]. rewrite bind_cons. cbn [fst snd].
  cbn [list_find]. cbn [fst]. case_decide as Ht.
  - subst k. cbn [fmap option_fmap option_map].
    assert ((l ≫= λ kv, if decide (t = kv.1) then f kv.2 else []) = []) as ->.
    { clear IH Hnd. induction l as [|[k' v'] l IH]; [done|].
      rewrite bind_cons. cbn [fst snd]. rewrite decide_False.
      - apply IH. intros H. apply Hk. by right.
      - intros ->. apply Hk. by left. }
    by rewrite app_nil_r.
  - rewrite IH by done. cbn [app].
    destruct (list_find (λ kv, t = kv.1) l) as [[i kv]|]; done.
Qed.

Lemma partitionsOf_select t (gbody : TPOffsetMap) :
  (map_to_list gbody ≫= λ tb, if decide (t = tb.1) then (map_to_list tb.2).*1 else [])
  = partitionsOf t gbody.
Proof.
  rewrite (bind_select _ (λ tbody, (map_to_list tbody).*1))
    by apply NoDup_fst_map_to_list.
  unfold partitionsOf.
  destruct (list_find (λ kv, t = kv.1) (map_to_list gbody)) as [[i [k v]]|] eqn:E.
  - apply list_find_Some in E as (Hi & Hk & _). cbn in Hk. subst k.
    apply list_elem_of_lookup_2 in Hi. apply elem_of_map_to_list in Hi.
    by rewrite Hi.
  - destruct (gbody !! t) as [tbody|] eqn:Ht; [|done].
    apply elem_of_map_to_list in Ht.
    eapply list_find_None in E. rewrite Forall_forall in E.
    specialize (E _ Ht). cbn in E. done.
Qed.

Lemma foldl_stepG (l : list (string * TPOffsetMap)) tpMap t :
  index_slice (foldl stepG tpMap l) t
  = index_slice tpMap t ++ (l ≫= λ gb, partitionsOf t gb.2).
Proof.
  revert tpMap. induction l as [|[g gbody] l IH]; intros tpMap.
  - cbn. by rewrite app_nil_r.
  - cbn [foldl]. rewrite IH. unfold stepG. rewrite foldl_stepT.
    rewrite partitionsOf_select, bind_cons. cbn [snd]. by rewrite <- app_assoc.
Qed.

(** The slice of a topic: the partitions of the topic in each group, one
    group after the other. *)
Lemma getTopicsAndPartitions_slice offsetStore t :
  index_slice (getTopicsAndPartitions offsetStore) t
  = (map_to_list offsetStore ≫= λ gb, partitionsOf t gb.2).
Proof. rewrite getTopicsAndPartitions_fold, foldl_stepG. done. Qed.

Lemma elem_of_partitionsOf t gbody p :
  p ∈ partitionsOf t gbody ↔ is_Some (lookup_tp gbody t p).
Proof.
  unfold partitionsOf, lookup_tp. destruct (gbody !! t) as [tbody|]; cbn.
  - rewrite list_elem_of_fmap. split.
    + intros ([p' c] & -> & H). apply elem_of_map_to_list in H. by exists c.
    + intros [c H]. exists (p, c). split; [done|]. by apply elem_of_map_to_list.
  - rewrite elem_of_nil. split; [done|]. by intros [? ?].
Qed.

Lemma NoDup_partitionsOf t gbody : NoDup (partitionsOf t gbody).
Proof.
  unfold partitionsOf. destruct (gbody !! t).
  - apply NoDup_fst_map_to_list.
  - apply NoDup_nil_2.
Qed.

Lemma occurrences_NoDup p l :
  NoDup l → occurrences p l = if decide (p ∈ l) then 1%nat else 0%nat.
Proof.
  unfold occurrences. induction l as [|x l IH]; intros Hnd.
  - rewrite decide_False by apply not_elem_of_nil. done.
  - apply NoDup_cons in Hnd as [Hx Hnd]. rewrite filter_cons.
    destruct (decide (x = p)) as [->|Hxp].
    + cbn [length]. rewrite IH by done.
      rewrite decide_False by done. rewrite decide_True by apply list_elem_of_here.
      done.
    + rewrite IH by done. case_decide as Hp.
      * rewrite decide_True by (by right). done.
      * rewrite decide_False; [done|].
        rewrite elem_of_cons. intros [->|?]; done.
Qed.

Lemma occurrences_app p l1 l2 :
  occurrences p (l1 ++ l2) = (occurrences p l1 + occurrences p l2)%nat.
Proof. unfold occurrences. by rewrite filter_app, length_app. Qed.

Lemma occurrences_groups p t (l : list (string * TPOffsetMap)) :
  occurrences p (l ≫= λ gb, partitionsOf t gb.2)
  = length (filter (λ gb, is_Some (lookup_tp gb.2 t p)) l).
Proof.
  induction l as [|[g gbody] l IH]; [done|].
  rewrite bind_cons, occurrences_app, IH. cbn [snd].
  rewrite occurrences_NoDup by apply NoDup_partitionsOf.
  rewrite filter_cons. cbn [snd].
  destruct (decide (is_Some (lookup_tp gbody t p))) as [Hs|Hs].
  - rewrite decide_True by (by apply elem_of_partitionsOf). done.
  - rewrite decide_False by (by rewrite elem_of_partitionsOf). done.
Qed.

(** A partition is in the slice of a topic exactly when a group holds an
    entry for the pair. *)
Lemma elem_of_getTopicsAndPartitions offsetStore t p :
  p ∈ index_slice (getTopicsAndPartitions offsetStore) t ↔
  ∃ group, is_Some (lookup_gtp offsetStore group t p).
Proof.
  rewrite getTopicsAndPartitions_slice, list_elem_of_bind.
  unfold lookup_gtp. split.
  - intros ([g gbody] & Hp & Hg). apply elem_of_map_to_list in Hg.
    exists g. rewrite Hg. cbn. by apply elem_of_partitionsOf.
  - intros (g & Hs). destruct (offsetStore !! g) as [gbody|] eqn:Hg.
    + exists (g, gbody). split; [|by apply elem_of_map_to_list].
      cbn in *. by apply elem_of_partitionsOf.
    + cbn in Hs. by destruct Hs.
Qed.

(** It occurs there once for each such group. *)
Lemma occurrences_getTopicsAndPartitions offsetStore t p :
  occurrences p (index_slice (getTopicsAndPartitions offsetStore) t)
  = holders offsetStore t p.
Proof.
  rewrite getTopicsAndPartitions_slice. apply occurrences_groups.
Qed.

End Snapshot.

(** The snapshot is not a set: a pair that two groups consume is listed
    twice. *)
Lemma snapshot_duplicates :
  is_Some (lookup_gtp (ConsumerOffsetStore Sample.twoGroups) "g1" "t" 0)
  ∧ is_Some (lookup_gtp (ConsumerOffsetStore Sample.twoGroups) "g2" "t" 0)
  ∧ index_slice (getTopicsAndPartitions (ConsumerOffsetStore Sample.twoGroups)) "t"
    = [0; 0]
  ∧ occurrences 0
      (index_slice (getTopicsAndPartitions (ConsumerOffsetStore Sample.twoGroups))
         "t")
    ≠ 1%nat.
Proof.
  split; [by vm_compute; eexists|]. split; [by vm_compute; eexists|].
  split; [vm_compute; reflexivity | vm_compute; discriminate].
Qed.

(** C6, amended. The snapshot lists a partition under a topic if and only
    if some group has an entry for that (topic, partition), and it lists it
    once for each group that has one: as often as there are such groups,
    not once. *)
Theorem snapshot_pairs (offsetStore : GTPOffsetMap) (topic : string) (partition : Z) :
  (partition ∈ index_slice (getTopicsAndPartitions offsetStore) topic ↔
   ∃ group, is_Some (lookup_gtp offsetStore group topic partition))
  ∧ occurrences partition (index_slice (getTopicsAndPartitions offsetStore) topic)
    = holders offsetStore topic partition.
Proof.
  split.
  - apply elem_of_getTopicsAndPartitions.
  - apply occurrences_getTopicsAndPartitions.
Qed.

(** ** The requests of the poller *)

Section Batching.

Variable client : sarama.Client.

Local Abbreviation step := (visitPair client).
Local Abbreviation leaderID := (leaderOf client).

Lemma buildRequests_visits tpList :
  buildRequests client tpList = foldl step ∅ (visits tpList).
Proof.
  unfold buildRequests, visits. generalize (∅ : gmap Z BrokerOffsetRequest).
  induction tpList as [|[topic partitions] tpList IH]; intros reqs; [done|].
  cbn [foldl]. rewrite bind_cons, foldl_app, IH. cbn [fst snd]. f_equal.
  clear IH. revert reqs.
  induction partitions as [|p partitions IH]; intros reqs; [done|].
  cbn [foldl fmap list_fmap]. by rewrite IH.
Qed.

Lemma step_other reqs tp leader :
  leaderID tp ≠ Some leader → step reqs tp !! leader = reqs !! leader.
Proof.
  unfold visitPair, leaderOf, addToRequests. intros H.
  destruct (sarama.Leader client tp.1 tp.2) as [br|]; [|done].
  cbn in H. assert (sarama.ID br ≠ leader) by congruence.
  destruct (reqs !! sarama.ID br); by rewrite lookup_insert_ne.
Qed.

Lemma foldl_step_other reqs l leader :
  Forall (λ tp, leaderID tp ≠ Some leader) l →
  foldl step reqs l !! leader = reqs !! leader.
Proof.
  revert reqs. induction l as [|tp l IH]; intros reqs Hl; [done|].
  apply Forall_cons in Hl as [Htp Hl]. cbn [foldl].
  rewrite IH by done. by apply step_other.
Qed.

(** The first pair of a leader makes the request, without a block. *)
Lemma step_first reqs tp leader :
  leaderID tp = Some leader → reqs !! leader = None →
  ∃ r, step reqs tp !! leader = Some r
       ∧ sarama.blocks (OffsetRequest r) = ∅.
Proof.
  unfold visitPair, leaderOf, addToRequests. intros H Hnone.
  destruct (sarama.Leader client tp.1 tp.2) as [br|]; [|done].
  injection H as ->. rewrite Hnone, lookup_insert_eq. eauto.
Qed.

(** A block in a request was there before the step or is the block of
    the pair of the step. *)
Lemma step_hasBlock reqs tp leader topic partition :
  hasBlock (step reqs tp) leader topic partition →
  hasBlock reqs leader topic partition ∨ tp = (topic, partition).
Proof.
  unfold visitPair, addToRequests, hasBlock.
  destruct (sarama.Leader client tp.1 tp.2) as [br|]; [|by left].
  destruct (decide (sarama.ID br = leader)) as [<-|Hne].
  - destruct (reqs !! sarama.ID br) as [r0|] eqn:E.
    + rewrite lookup_insert_eq. intros (r & [= <-] & Hb).
      cbn [OffsetRequest sarama.AddBlock sarama.blocks] in Hb.
      destruct (decide (tp.1 = topic)) as [Ht|Ht].
      * rewrite Ht in Hb. rewrite lookup_insert_eq in Hb. cbn [from_option id] in Hb.
        destruct (decide (tp.2 = partition)) as [Hp|Hp].
        -- right. destruct tp. cbn in *. congruence.
        -- rewrite lookup_insert_ne in Hb by done. left. eauto.
      * rewrite lookup_insert_ne in Hb by done. left. eauto.
    + rewrite lookup_insert_eq. intros (r & [= <-] & Hb).
      cbn [OffsetRequest sarama.blocks] in Hb.
      rewrite lookup_empty in Hb. cbn in Hb. rewrite lookup_empty in Hb.
      by destruct Hb.
  - destruct (reqs !! sarama.ID br); rewrite lookup_insert_ne by done; by left.
Qed.

Lemma foldl_step_hasBlock reqs l leader topic partition :
  hasBlock (foldl step reqs l) leader topic partition →
  hasBlock reqs leader topic partition ∨ (topic, partition) ∈ l.
Proof.
  revert reqs. induction l as [|tp l IH]; intros reqs H; [by left|].
  cbn [foldl] in H. apply IH in H as [H|H]; [|right; by right].
  apply step_hasBlock in H as [H| ->]; [by left | right; by left].
Qed.

(** A request, once made, stays in the map. *)
Lemma foldl_step_Some reqs l leader :
  is_Some (reqs !! leader) → is_Some (foldl step reqs l !! leader).
Proof.
  revert reqs. induction l as [|tp l IH]; intros reqs Hr; [done|].
  cbn [foldl]. apply IH. destruct Hr as [r Hr].
  unfold visitPair, addToRequests.
  destruct (sarama.Leader client tp.1 tp.2) as [br|]; [|by eexists].
  destruct (decide (sarama.ID br = leader)) as [<-|Hne].
  - rewrite Hr, lookup_insert_eq. by eexists.
  - destruct (reqs !! sarama.ID br); rewrite lookup_insert_ne by done;
      by eexists.
Qed.

(** The defect of the batching loop: the pair that is the first of its
    leader to be visited, and that is not visited again, gets no block in
    the request of that leader. *)
Lemma first_visit_not_requested tpList pre topic partition post leader :
  visits tpList = pre ++ (topic, partition) :: post →
  Forall (λ tp, leaderID tp ≠ Some leader) pre →
  leaderID (topic, partition) = Some leader →
  (topic, partition) ∉ post →
  is_Some (buildRequests client tpList !! leader)
  ∧ ¬ hasBlock (buildRequests client tpList) leader topic partition.
Proof.
  intros Hv Hpre Hl Hpost. rewrite buildRequests_visits, Hv, foldl_app.
  cbn [foldl].
  pose proof (foldl_step_other ∅ pre leader Hpre) as Hnone.
  rewrite lookup_empty in Hnone.
  destruct (step_first _ _ _ Hl Hnone) as (r & Hr & Hblocks).
  split.
  - apply foldl_step_Some. by eexists.
  - intros H. apply foldl_step_hasBlock in H as [(r' & Hr' & Hb)|H]; [|done].
    rewrite Hr in Hr'. injection Hr' as <-.
    rewrite Hblocks, lookup_empty in Hb. cbn in Hb.
    rewrite lookup_empty in Hb. by destruct Hb.
Qed.

End Batching.

(** C1, on the example of the specification: (t1, 0) and (t2, 0) led by
    leader 1, (t1, 1) led by leader 2.  In whatever order the loops visit
    the pairs, the map of requests has one request for each of the two
    leaders, but the request of leader 2 has no block at all and the
    request of leader 1 has a block for one of its two pairs only: the pair
    visited first for a leader creates the request and is not added to
    it. *)
Theorem batching_drops_first_pair :
  Forall (λ tpList,
            let reqs := buildRequests Sample.client tpList in
            dom reqs = {[1; 2]}
            ∧ requestBlocks reqs 2 = []
            ∧ (requestBlocks reqs 1 = [("t2", 0)]
               ∨ requestBlocks reqs 1 = [("t1", 0)]))
         Sample.orders
  ∧ map_to_list (getTopicsAndPartitions (ConsumerOffsetStore Sample.threePairs))
      ∈ Sample.orders
  ∧ ¬ hasBlock (buildRequests Sample.client
                  (map_to_list
                     (getTopicsAndPartitions
                        (ConsumerOffsetStore Sample.threePairs))))
        2 "t1" 1.
Proof.
  split; [|split].
  - unfold Sample.orders.
    repeat (apply Forall_cons_2;
            [cbv zeta; split; [vm_compute; reflexivity|];
             split; [vm_compute; reflexivity|];
             first [left; vm_compute; reflexivity | right; vm_compute; reflexivity]|]).
    apply Forall_nil_2.
  - vm_compute. repeat constructor.
  - intros (r & Hr & Hb). vm_compute in Hr. injection Hr as <-.
    vm_compute in Hb. by destruct Hb.
Qed.

(** * Further properties of the monitor *)

(** ** The two tables *)

Section MoreTables.

(** The table after an upsert, as a function of the key. *)
Lemma upd_commute (s : GTPOffsetMap) g t p o g' t' p' o' :
  (g, t, p) ≠ (g', t', p') →
  let upd (s : GTPOffsetMap) g t p o :=
    <[g := <[t := <[p := o]> (default ∅ (default ∅ (s !! g) !! t))]>
             (default ∅ (s !! g))]> s in
  upd (upd s g t p o) g' t' p' o' = upd (upd s g' t' p' o') g t p o.
Proof.
  intros Hne. cbv zeta.
  destruct (decide (g = g')) as [<-|Hg].
  - rewrite !lookup_insert_eq. cbn [from_option id]. rewrite !insert_insert_eq.
    f_equal.
    destruct (decide (t = t')) as [<-|Ht].
    + rewrite !lookup_insert_eq. cbn [from_option id]. rewrite !insert_insert_eq.
      f_equal. apply insert_insert_ne. congruence.
    + rewrite !lookup_insert_ne by done. by apply insert_insert_ne.
  - rewrite !lookup_insert_ne by done. by apply insert_insert_ne.
Qed.

Lemma storeBrokerOffset_store newOffset qsm :
  BrokerOffsetStore (storeBrokerOffset newOffset qsm)
  = <[Topic newOffset :=
        <[Partition newOffset := Offset newOffset]>
          (default ∅ (BrokerOffsetStore qsm !! Topic newOffset))]>
      (BrokerOffsetStore qsm).
Proof.
  unfold storeBrokerOffset. cbn [BrokerOffsetStore set_BrokerOffsetStore]. cbv zeta.
  destruct (BrokerOffsetStore qsm !! Topic newOffset) as [tbody|] eqn:Et;
    cbv beta iota.
  - by rewrite Et.
  - rewrite lookup_insert_eq. cbn [from_option id]. by rewrite insert_insert_eq.
Qed.

Lemma lookup_tp_insert (s : TPOffsetMap) t p o t' p' :
  lookup_tp (<[t := <[p := o]> (default ∅ (s !! t))]> s) t' p'
  = if decide (t' = t ∧ p' = p) then Some o else lookup_tp s t' p'.
Proof.
  unfold lookup_tp. destruct (decide (t' = t)) as [->|Ht].
  - rewrite lookup_insert_eq. cbn [mbind option_bind].
    destruct (decide (p' = p)) as [->|Hp].
    + rewrite lookup_insert_eq. by rewrite decide_True.
    + rewrite lookup_insert_ne by done. rewrite decide_False by tauto.
      destruct (s !! t); cbn; done.
  - rewrite lookup_insert_ne by done. by rewrite decide_False by tauto.
Qed.

Lemma lookup_storeBrokerOffset newOffset qsm topic partition :
  lookup_tp (BrokerOffsetStore (storeBrokerOffset newOffset qsm)) topic partition
  = if decide (topic = Topic newOffset ∧ partition = Partition newOffset)
    then Some (Offset newOffset)
    else lookup_tp (BrokerOffsetStore qsm) topic partition.
Proof. rewrite storeBrokerOffset_store. apply lookup_tp_insert. Qed.

End MoreTables.

(** X1. After [storeConsumerOffset], the lookup of the key of the new
    offset answers that offset and the lookup of every other key answers
    what it answered before; the broker table is not touched. *)
Theorem consumer_upsert_lookup (newOffset : PartitionOffset) (qsm : QueueSizeMonitor)
    (group topic : string) (partition : Z) :
  lookup_gtp (ConsumerOffsetStore (storeConsumerOffset newOffset qsm))
    group topic partition
  = (if decide ((group, topic, partition)
                = (Group newOffset, Topic newOffset, Partition newOffset))
     then Some (Offset newOffset)
     else lookup_gtp (ConsumerOffsetStore qsm) group topic partition)
  ∧ BrokerOffsetStore (storeConsumerOffset newOffset qsm) = BrokerOffsetStore qsm.
Proof.
  split; [|done]. rewrite lookup_storeConsumerOffset.
  destruct (decide (group = Group newOffset ∧ topic = Topic newOffset
                    ∧ partition = Partition newOffset)) as [(-> & -> & ->)|Hne].
  - by rewrite decide_True.
  - rewrite decide_False; [done|]. intros [= -> -> ->]. tauto.
Qed.

(** X2. Two upserts of the consumer table under different keys commute:
    the table does not depend on which of the two records was processed
    first. *)
Theorem consumer_upserts_commute (a b : PartitionOffset) (qsm : QueueSizeMonitor) :
  (Group a, Topic a, Partition a) ≠ (Group b, Topic b, Partition b) →
  storeConsumerOffset a (storeConsumerOffset b qsm)
  = storeConsumerOffset b (storeConsumerOffset a qsm).
Proof.
  intros Hne.
  assert (∀ x y, storeConsumerOffset x y
                 = set_ConsumerOffsetStore
                     (ConsumerOffsetStore (storeConsumerOffset x y)) y) as Hset
    by done.
  rewrite (Hset a), (Hset b (storeConsumerOffset a qsm)).
  rewrite !storeConsumerOffset_store. cbv zeta.
  unfold set_ConsumerOffsetStore. cbn [Client BrokerOffsetStore StatsdClient StatsdCfg
    ConsumerOffsetStore storeConsumerOffset set_ConsumerOffsetStore].
  f_equal.
  pose proof (upd_commute (ConsumerOffsetStore qsm) (Group b) (Topic b) (Partition b)
                (Offset b) (Group a) (Topic a) (Partition a) (Offset a)) as H.
  cbv zeta in H. apply H. congruence.
Qed.

Lemma consumer_upserts_commute_witness :
  storeConsumerOffset (Sample.offset "g1" "t" 0 5)
    (storeConsumerOffset (Sample.offset "g2" "t" 0 7) Sample.monitor)
  = Sample.twoGroups.
Proof.
  apply (consumer_upserts_commute (Sample.offset "g1" "t" 0 5)
           (Sample.offset "g2" "t" 0 7) Sample.monitor).
  vm_compute. discriminate.
Defined.

(** X3. After [storeBrokerOffset], the lookup of the (topic, partition) of
    the new offset answers that offset, the lookup of every other pair
    answers what it answered before, and the consumer table is not
    touched. *)
Theorem broker_upsert_lookup (newOffset : PartitionOffset) (qsm : QueueSizeMonitor)
    (topic : string) (partition : Z) :
  lookup_tp (BrokerOffsetStore (storeBrokerOffset newOffset qsm)) topic partition
  = (if decide ((topic, partition) = (Topic newOffset, Partition newOffset))
     then Some (Offset newOffset)
     else lookup_tp (BrokerOffsetStore qsm) topic partition)
  ∧ ConsumerOffsetStore (storeBrokerOffset newOffset qsm) = ConsumerOffsetStore qsm.
Proof.
  split; [|done]. rewrite lookup_storeBrokerOffset.
  destruct (decide (topic = Topic newOffset ∧ partition = Partition newOffset))
    as [(-> & ->)|Hne].
  - by rewrite decide_True.
  - rewrite decide_False; [done|]. intros [= -> ->]. tauto.
Qed.

Section CreateTable.

Lemma createTPOffsetMap_snoc l partitionOffset :
  createTPOffsetMap (l ++ [partitionOffset])
  = <[Topic partitionOffset :=
        <[Partition partitionOffset := Offset partitionOffset]>
          (default ∅ (createTPOffsetMap l !! Topic partitionOffset))]>
      (createTPOffsetMap l).
Proof.
  unfold createTPOffsetMap. rewrite foldl_app. cbn [foldl]. cbv zeta.
  match goal with |- context [foldl ?f ∅ l] => generalize (foldl f ∅ l) end.
  intros m. destruct (m !! Topic partitionOffset) as [tbody|] eqn:Et;
    cbv beta iota.
  - by rewrite Et.
  - rewrite lookup_insert_eq. cbn [from_option id]. by rewrite insert_insert_eq.
Qed.

End CreateTable.

(** X4. [createTPOffsetMap] builds the table that storing the offsets one
    after the other in an empty broker table builds, and its lookup of a
    (topic, partition) answers the offset of the last element of the slice
    for that pair, or nothing when the slice has none. *)
Theorem createTPOffsetMap_last (offsetStore : list PartitionOffset)
    (qsm : QueueSizeMonitor) (topic : string) (partition : Z) :
  createTPOffsetMap offsetStore
  = BrokerOffsetStore
      (foldl (λ q partitionOffset, storeBrokerOffset partitionOffset q)
             (set_BrokerOffsetStore ∅ qsm) offsetStore)
  ∧ lookup_tp (createTPOffsetMap offsetStore) topic partition
    = Offset <$> last (filter (λ po, Topic po = topic ∧ Partition po = partition)
                              offsetStore).
Proof.
  split.
  - induction offsetStore as [|po l IH] using rev_ind; [done|].
    rewrite createTPOffsetMap_snoc, foldl_app. cbn [foldl].
    rewrite storeBrokerOffset_store, <- IH. done.
  - induction offsetStore as [|po l IH] using rev_ind; [done|].
    rewrite createTPOffsetMap_snoc, lookup_tp_insert, filter_app, IH.
    rewrite filter_cons, filter_nil.
    destruct (decide (Topic po = topic ∧ Partition po = partition)) as [[<- <-]|Hne].
    + rewrite decide_True by done. by rewrite last_snoc.
    + rewrite decide_False by (intros [-> ->]; tauto). by rewrite app_nil_r.
Qed.

(** ** The wire format, read backwards *)

Section Inverse.

Import Binary.

Lemma byte_of_to_Z b : byte_of_Z (byte_to_Z b) = b.
Proof.
  unfold byte_of_Z. rewrite Z.mod_small by apply byte_to_Z_range.
  unfold byte_to_Z. rewrite N2Z.id, Byte.of_to_N. done.
Qed.

Lemma byte_of_Z_add x a : byte_of_Z (x + a * 256) = byte_of_Z x.
Proof. unfold byte_of_Z. by rewrite Z_mod_plus_full. Qed.

Lemma PutBigEndian_add_mul n a z :
  PutBigEndian n (z + a * 256 ^ Z.of_nat n) = PutBigEndian n z.
Proof.
  revert a. induction n as [|n IH]; intros a; [done|].
  cbn [PutBigEndian].
  assert (0 < 256 ^ Z.of_nat n) by (apply Z.pow_pos_nonneg; lia).
  replace (256 ^ Z.of_nat (S n)) with (256 * 256 ^ Z.of_nat n)
    by (rewrite Nat2Z.inj_succ, Z.pow_succ_r by lia; done).
  f_equal.
  - replace (z + a * (256 * 256 ^ Z.of_nat n))
      with (z + (a * 256) * 256 ^ Z.of_nat n) by lia.
    rewrite Z.div_add by lia. apply byte_of_Z_add.
  - replace (z + a * (256 * 256 ^ Z.of_nat n))
      with (z + (a * 256) * 256 ^ Z.of_nat n) by lia.
    apply IH.
Qed.

Lemma foldl_BigEndian acc bs :
  foldl (λ acc b, acc * 256 + byte_to_Z b) acc bs
  = acc * 256 ^ Z.of_nat (length bs) + BigEndian bs.
Proof.
  unfold BigEndian. induction bs as [|b bs IH] using rev_ind.
  - cbn. lia.
  - rewrite !foldl_app. cbn [foldl]. rewrite IH, length_app. cbn [length].
    replace (Z.of_nat (length bs + 1)) with (Z.of_nat (length bs) + 1) by lia.
    rewrite Z.pow_add_r, Z.pow_1_r by lia. lia.
Qed.

Lemma BigEndian_cons x bs :
  BigEndian (x :: bs)
  = byte_to_Z x * 256 ^ Z.of_nat (length bs) + BigEndian bs.
Proof.
  unfold BigEndian at 1. cbn [foldl]. rewrite foldl_BigEndian. lia.
Qed.

(** Putting back what was read gives the bytes that were read. *)
Lemma PutBigEndian_BigEndian bs : PutBigEndian (length bs) (BigEndian bs) = bs.
Proof.
  induction bs as [|x bs IH]; [done|].
  cbn [length PutBigEndian]. rewrite BigEndian_cons.
  pose proof (BigEndian_range bs) as Hr.
  assert (0 < 256 ^ Z.of_nat (length bs)) by (apply Z.pow_pos_nonneg; lia).
  f_equal.
  - rewrite Z.add_comm, Z.div_add by lia.
    rewrite Z.div_small by lia. apply byte_of_to_Z.
  - rewrite Z.add_comm, PutBigEndian_add_mul. apply IH.
Qed.

Lemma read_uint_inv n b v b' :
  run (read_uint n) b = (Ok v, b') →
  b = PutBigEndian n v ++ b' ∧ 0 ≤ v < 256 ^ Z.of_nat n.
Proof.
  intros H. apply read_uint_Ok in H as (Hn & -> & ->).
  pose proof (BigEndian_range (take n b)) as Hr.
  pose proof (PutBigEndian_BigEndian (take n b)) as Hp.
  rewrite length_take, Nat.min_l in Hr, Hp by lia.
  rewrite Hp, take_drop. done.
Qed.

Lemma readString_inv b s b' :
  run readString b = (Ok s, b') → Wire.fits s ∧ b = Wire.putString s ++ b'.
Proof.
  rewrite readString_eq, run_bind.
  destruct (run (read_uint 2) b) as [[strlen|e] b1] eqn:E; [|discriminate].
  apply read_uint_inv in E as [-> Hlen].
  change (256 ^ Z.of_nat 2) with (2 ^ 16) in Hlen.
  unfold readBytes. cbn [run].
  destruct (Buf.Read (Z.to_nat strlen) b1) as [[bs err] b2] eqn:ER.
  case_decide as Hd; [discriminate|]. intros [= <- <-].
  assert (err = None ∧ length bs = Z.to_nat strlen) as [-> Hl].
  { split; [destruct err; [exfalso; apply Hd; left; done | done]|].
    destruct (decide (length bs = Z.to_nat strlen)); [done|]. exfalso. tauto. }
  assert (b1 = bs ++ b2) as ->.
  { unfold Buf.Read in ER. destruct b1 as [|x b1].
    - destruct (Z.to_nat strlen); [|discriminate]. by injection ER as <- <-.
    - injection ER as <- <-. by rewrite take_drop. }
  unfold Wire.fits, Wire.putString.
  rewrite list_byte_of_string_of_list_byte, Hl, Z2Nat.id by lia.
  rewrite <- app_assoc. split; [lia | done].
Qed.

Lemma decodeKey_inv b group topic partition rest :
  run decodeKey b = (Ok (group, topic, partition), rest) →
  ∃ version, (version = 0 ∨ version = 1)
    ∧ Wire.fits group ∧ Wire.fits topic ∧ 0 ≤ partition < 2 ^ 32
    ∧ b = Wire.encodeKey version group topic partition ++ rest.
Proof.
  intros H. unfold decodeKey in H. cbn [run] in H.
  destruct (binary_Read_cases 2 0 b) as [[Hn E]|[Hn [e E]]]; rewrite E in H.
  - case_decide as Hv; [|case_decide; discriminate].
    exists (BigEndian (take 2 b)). split; [done|].
    assert (take 2 b = PutBigEndian 2 (BigEndian (take 2 b))) as Hb.
    { pose proof (PutBigEndian_BigEndian (take 2 b)) as Hp.
      rewrite length_take, Nat.min_l in Hp by lia. done. }
    unfold readKeyFields in H. rewrite run_bind in H.
    destruct (run readString (drop 2 b)) as [[g|e] b1] eqn:EG; [|discriminate].
    rewrite run_bind in H.
    destruct (run readString b1) as [[t|e] b2] eqn:ET; [|discriminate].
    rewrite run_bind in H.
    destruct (run (read_uint 4) b2) as [[p|e] b3] eqn:EP; [|discriminate].
    injection H as <- <- <- <-.
    apply readString_inv in EG as [Hg EG], ET as [Ht ->].
    apply read_uint_inv in EP as [-> Hp].
    split; [done|]. split; [done|]. split; [done|].
    unfold Wire.encodeKey. rewrite <- Hb, <- !app_assoc, <- EG.
    by rewrite take_drop.
  - rewrite decide_True in H by (left; done).
    destruct readKeyFields_nil as [e' He']. congruence.
Qed.

Lemma decodeValue_inv b offset timestamp rest :
  run decodeValue b = (Ok (offset, timestamp), rest) →
  ∃ version metadata, (version = 0 ∨ version = 1) ∧ Wire.fits metadata
    ∧ 0 ≤ offset < 2 ^ 64 ∧ 0 ≤ timestamp < 2 ^ 64
    ∧ b = Wire.encodeValue version offset metadata timestamp ++ rest.
Proof.
  intros H. unfold decodeValue in H. cbn [run] in H.
  destruct (binary_Read_cases 2 0 b) as [[Hn E]|[Hn [e E]]]; rewrite E in H.
  - case_decide as Hv; [discriminate|].
    assert (take 2 b = PutBigEndian 2 (BigEndian (take 2 b))) as Hb.
    { pose proof (PutBigEndian_BigEndian (take 2 b)) as Hp.
      rewrite length_take, Nat.min_l in Hp by lia. done. }
    unfold readValueFields in H. rewrite run_bind in H.
    destruct (run (read_uint 8) (drop 2 b)) as [[o|e] b1] eqn:EO; [|discriminate].
    rewrite run_bind in H.
    destruct (run readString b1) as [[md|e] b2] eqn:EM; [|discriminate].
    rewrite run_bind in H.
    destruct (run (read_uint 8) b2) as [[ts|e] b3] eqn:ETS; [|discriminate].
    injection H as <- <- <-.
    apply read_uint_inv in EO as [EO Ho], ETS as [-> Hts].
    apply readString_inv in EM as [Hm ->].
    exists (BigEndian (take 2 b)), md.
    split; [lia|]. split; [done|]. split; [done|]. split; [done|].
    unfold Wire.encodeValue. rewrite <- Hb, <- !app_assoc, <- EO.
    by rewrite take_drop.
  - rewrite decide_True in H by (left; done). discriminate.
Qed.

End Inverse.

(** X5. Processing a record whose key and value are built to the layout
    (versions 0 or 1, integers in the range of their signed types) logs
    nothing and leaves the consumer table answering the offset of the
    record at its (group, topic, partition) and, at every other key, what
    it answered before. *)
Theorem ingest_round_trip (kver vver : Z) (group topic metadata : string)
    (partition offset timestamp : Z) (qsm : QueueSizeMonitor) :
  kver = 0 ∨ kver = 1 → vver = 0 ∨ vver = 1 →
  Wire.fits group → Wire.fits topic → Wire.fits metadata →
  Int.is_int32 partition → Int.is_int64 offset → Int.is_int64 timestamp →
  let message :=
    {| sarama.Key := Wire.encodeKey kver group topic partition;
       sarama.Value := Wire.encodeValue vver offset metadata timestamp |} in
  let after := (formatConsumerOffsetMessage message qsm).1 in
  (formatConsumerOffsetMessage message qsm).2 = []
  ∧ lookup_gtp (ConsumerOffsetStore after) group topic partition = Some offset
  ∧ ∀ g t p, (g, t, p) ≠ (group, topic, partition) →
      lookup_gtp (ConsumerOffsetStore after) g t p
      = lookup_gtp (ConsumerOffsetStore qsm) g t p.
Proof.
  intros Hk Hv Hg Ht Hm Hp Ho Hts. cbv zeta.
  erewrite formatConsumerOffsetMessage_Ok by (by apply parseMessage_encode).
  cbn [fst snd]. split; [done|]. split.
  - rewrite lookup_storeConsumerOffset. by rewrite decide_True.
  - intros g t p Hne. rewrite lookup_storeConsumerOffset.
    rewrite decide_False; [done|]. cbn. intros (-> & -> & ->). done.
Qed.

Lemma ingest_round_trip_witness :
  lookup_gtp
    (ConsumerOffsetStore
       (formatConsumerOffsetMessage
          {| sarama.Key := Wire.encodeKey 1 "g1" "orders" 0;
             sarama.Value := Wire.encodeValue 1 50 "md" 1700000000000 |}
          Sample.monitor).1)
    "g1" "orders" 0 = Some 50.
Proof.
  assert (Wire.fits "g1" ∧ Wire.fits "orders" ∧ Wire.fits "md") as (Fg & Ft & Fm)
    by (unfold Wire.fits; simpl; lia).
  apply (ingest_round_trip 1 1 "g1" "orders" "md" 0 50 1700000000000 Sample.monitor
           (or_intror eq_refl) (or_intror eq_refl) Fg Ft Fm);
    [unfold Int.is_int32 | unfold Int.is_int64 | unfold Int.is_int64]; lia.
Defined.

(** X6. The decoder of keys accepts exactly the buffers that begin with a
    key built to the layout, with version 0 or 1: it answers (group, topic,
    partition) and leaves [rest] if and only if the buffer is such a key of
    these fields followed by [rest].  Whatever follows the partition is not
    looked at. *)
Theorem accepted_keys (b : list byte) (group topic : string) (partition : Z)
    (rest : list byte) :
  run decodeKey b = (Ok (group, topic, partition), rest) ↔
  ∃ version, (version = 0 ∨ version = 1)
    ∧ Wire.fits group ∧ Wire.fits topic ∧ 0 ≤ partition < 2 ^ 32
    ∧ b = Wire.encodeKey version group topic partition ++ rest.
Proof.
  split; [apply decodeKey_inv|].
  intros (version & Hv & Hg & Ht & Hp & ->).
  rewrite decodeKey_encode by done. by rewrite Z.mod_small.
Qed.

(** X7. The decoder of values accepts exactly the buffers that begin with
    a value built to the layout, with version 0 or 1 and some metadata
    string: it answers (offset, timestamp) and leaves [rest] if and only if
    the buffer is such a value of these fields followed by [rest]. *)
Theorem accepted_values (b : list byte) (offset timestamp : Z) (rest : list byte) :
  run decodeValue b = (Ok (offset, timestamp), rest) ↔
  ∃ version metadata, (version = 0 ∨ version = 1) ∧ Wire.fits metadata
    ∧ 0 ≤ offset < 2 ^ 64 ∧ 0 ≤ timestamp < 2 ^ 64
    ∧ b = Wire.encodeValue version offset metadata timestamp ++ rest.
Proof.
  split; [apply decodeValue_inv|].
  intros (version & metadata & Hv & Hm & Ho & Hts & ->).
  rewrite decodeValue_encode by done. by rewrite !Z.mod_small.
Qed.

(** X8. A key too short to hold the version (no byte or one byte) is not
    rejected for its version: the failed read leaves the version at 0, the
    group string is read from the exhausted buffer, and the record is
    dropped with [io.EOF] as the logged error, whatever the value. *)
Theorem short_key_is_EOF (key value : list byte) (qsm : QueueSizeMonitor) :
  (length key < 2)%nat →
  run decodeKey key = (Fail (Some EOF), [])
  ∧ formatConsumerOffsetMessage {| sarama.Key := key; sarama.Value := value |} qsm
    = (qsm, [LogParseError (Some EOF)]).
Proof.
  intros Hl.
  assert (run decodeKey key = (Fail (Some EOF), [])) as E.
  { unfold decodeKey. cbn [run].
    destruct (binary_Read_cases 2 0 key) as [[Hn _]|[_ [e ->]]]; [lia|].
    by rewrite decide_True by (left; done). }
  split; [done|].
  apply formatConsumerOffsetMessage_Fail, parseMessage_Fail. left. eauto.
Qed.

Lemma short_key_is_EOF_witness :
  run decodeKey [x01] = (Fail (Some EOF), []).
Proof.
  apply (short_key_is_EOF [x01] [] Sample.monitor). simpl. lia.
Defined.

(** ** More of the reporter *)

Section MoreReporter.

Lemma elem_of_entries (m : GTPOffsetMap) g t p c :
  (g, t, p, c) ∈ entries m ↔ lookup_gtp m g t p = Some c.
Proof.
  unfold entries, lookup_gtp, lookup_tp. split.
  - intros H.
    apply list_elem_of_bind in H as ([g' gbody] & H & Hg).
    apply list_elem_of_bind in H as ([t' tbody] & H & Ht).
    apply list_elem_of_bind in H as ([p' c'] & H & Hp).
    apply list_elem_of_singleton in H. cbn in H. injection H as -> -> -> ->.
    apply elem_of_map_to_list in Hg, Ht, Hp.
    cbn in *. rewrite Hg. cbn. rewrite Ht. cbn. done.
  - intros Hc.
    destruct (m !! g) as [gbody|] eqn:Hg; [|done]. cbn in Hc.
    destruct (gbody !! t) as [tbody|] eqn:Ht; [|done]. cbn in Hc.
    apply list_elem_of_bind. exists (g, gbody).
    split; [|by apply elem_of_map_to_list].
    apply list_elem_of_bind. exists (t, tbody).
    split; [|by apply elem_of_map_to_list].
    apply list_elem_of_bind. exists (p, c).
    split; [apply list_elem_of_here | by apply elem_of_map_to_list].
Qed.

Lemma NoDup_entries (m : GTPOffsetMap) : NoDup (entries m).
Proof.
  unfold entries. apply NoDup_bind; [| |apply NoDup_map_to_list].
  - intros [g1 gb1] [g2 gb2] y H1 H2 Hy1 Hy2.
    apply elem_of_map_to_list in H1, H2.
    apply list_elem_of_bind in Hy1 as (tb1 & Hy1 & _).
    apply list_elem_of_bind in Hy1 as (pc1 & Hy1 & _).
    apply list_elem_of_bind in Hy2 as (tb2 & Hy2 & _).
    apply list_elem_of_bind in Hy2 as (pc2 & Hy2 & _).
    apply list_elem_of_singleton in Hy1, Hy2. cbn in Hy1, Hy2. subst y.
    assert (g1 = g2) as -> by congruence. congruence.
  - intros [g gb] Hg. apply NoDup_bind; [| |apply NoDup_map_to_list].
    + intros [t1 tb1] [t2 tb2] y H1 H2 Hy1 Hy2.
      apply elem_of_map_to_list in H1, H2.
      apply list_elem_of_bind in Hy1 as (pc1 & Hy1 & _).
      apply list_elem_of_bind in Hy2 as (pc2 & Hy2 & _).
      apply list_elem_of_singleton in Hy1, Hy2. cbn in Hy1, Hy2. subst y.
      assert (t1 = t2) as -> by congruence. congruence.
    + intros [t tb] Ht. apply NoDup_bind; [| |apply NoDup_map_to_list].
      * intros [p1 c1] [p2 c2] y _ _ Hy1 Hy2.
        apply list_elem_of_singleton in Hy1, Hy2. cbn in Hy1, Hy2. subst y.
        congruence.
      * intros ? _. apply NoDup_singleton.
Qed.

Lemma computeLag_entries qsm brokerOffsetMap consumerOffsetMap :
  computeLag qsm brokerOffsetMap consumerOffsetMap
  = (entries consumerOffsetMap ≫= λ e,
       computeLag_body qsm brokerOffsetMap consumerOffsetMap e.1.1.1 e.1.1.2 e.1.2).
Proof.
  unfold computeLag, entries.
  induction (map_to_list consumerOffsetMap) as [|[g gb] lg IHg]; [done|].
  rewrite !bind_cons, bind_app, IHg. f_equal. cbn [fst snd]. clear IHg.
  induction (map_to_list gb) as [|[t tb] lt IHt]; [done|].
  rewrite !bind_cons, bind_app, IHt. f_equal. cbn [fst snd]. clear IHt.
  induction (map_to_list tb) as [|[p c] lp IHp]; [done|].
  rewrite !bind_cons, bind_app, IHp. f_equal. cbn [fst snd].
  rewrite bind_cons. cbn. by rewrite app_nil_r.
Qed.

End MoreReporter.

(** X9. [computeLag] runs its loop body once for every entry of the
    consumer table and for nothing else: its output is the outputs of the
    body over a list of (group, topic, partition, offset) that has no
    duplicates and holds exactly the entries of the table. *)
Theorem each_entry_reported_once (qsm : QueueSizeMonitor)
    (brokerOffsetMap : TPOffsetMap) (consumerOffsetMap : GTPOffsetMap) :
  computeLag qsm brokerOffsetMap consumerOffsetMap
  = (entries consumerOffsetMap ≫= λ e,
       computeLag_body qsm brokerOffsetMap consumerOffsetMap e.1.1.1 e.1.1.2 e.1.2)
  ∧ NoDup (entries consumerOffsetMap)
  ∧ ∀ group topic partition c,
      (group, topic, partition, c) ∈ entries consumerOffsetMap ↔
      lookup_gtp consumerOffsetMap group topic partition = Some c.
Proof.
  split; [apply computeLag_entries|]. split; [apply NoDup_entries|].
  intros. apply elem_of_entries.
Qed.

(** X10. A monitor whose Statsd client is nil sends no gauge at all: for
    every entry whose lag is not negative [sendGaugeToStatsd] only logs
    that the client is not initialized. *)
Theorem no_client_no_gauge (qsm : QueueSizeMonitor) (brokerOffsetMap : TPOffsetMap)
    (consumerOffsetMap : GTPOffsetMap) :
  StatsdClient qsm = None →
  (∀ stat v, SendGauge stat v ∉ computeLag qsm brokerOffsetMap consumerOffsetMap)
  ∧ ∀ group topic partition c,
      lookup_gtp consumerOffsetMap group topic partition = Some c →
      0 ≤ Int.sub64 (default 0 (lookup_tp brokerOffsetMap topic partition)) c →
      LogStatsdNotInitialized ∈ computeLag qsm brokerOffsetMap consumerOffsetMap.
Proof.
  intros Hnil. split.
  - intros stat v H. apply elem_of_computeLag in H as (g & t & p & c & _ & H).
    unfold computeLag_body in H. cbv zeta in H. case_decide.
    + apply list_elem_of_singleton in H. discriminate.
    + unfold sendGaugeToStatsd in H. rewrite Hnil in H.
      cbn [app] in H. rewrite !elem_of_cons, elem_of_nil in H.
      destruct H as [[=]|[[=]|[]]].
  - intros g t p c Hc Hlag. apply elem_of_computeLag. exists g, t, p, c.
    split; [done|]. unfold computeLag_body. cbv zeta.
    rewrite index_gtp_lookup, index_tp_lookup, Hc. cbn [from_option id].
    rewrite decide_False by lia. unfold sendGaugeToStatsd. rewrite Hnil.
    apply list_elem_of_here.
Qed.

Lemma no_client_no_gauge_witness :
  LogStatsdNotInitialized
    ∈ computeLag Fixture.noClient
        (BrokerOffsetStore
           (storeBrokerOffset (Sample.brokerOffset "t" 0 9) Fixture.noClient))
        (ConsumerOffsetStore Fixture.noClient).
Proof.
  refine (proj2 (no_client_no_gauge Fixture.noClient _ _ eq_refl) "g1" "t" 0 5 _ _).
  - vm_compute. reflexivity.
  - vm_compute. discriminate.
Defined.

(** X11. While the broker table has no offset for a (topic, partition),
    an entry with a positive consumer offset [c] has lag [-c]: the loop
    body logs the negative-lag diagnostic and sends no gauge for it. *)
Theorem cold_start_lag_dropped (qsm : QueueSizeMonitor)
    (brokerOffsetMap : TPOffsetMap) (consumerOffsetMap : GTPOffsetMap)
    (group topic : string) (partition c : Z) :
  lookup_gtp consumerOffsetMap group topic partition = Some c →
  lookup_tp brokerOffsetMap topic partition = None →
  0 < c < 2 ^ 63 →
  computeLag_body qsm brokerOffsetMap consumerOffsetMap group topic partition
  = [LogNegativeLag (statName (Prefix (StatsdCfg qsm)) group topic partition) (- c)]
  ∧ LogNegativeLag (statName (Prefix (StatsdCfg qsm)) group topic partition) (- c)
      ∈ computeLag qsm brokerOffsetMap consumerOffsetMap.
Proof.
  intros Hc Hb Hpos.
  assert (computeLag_body qsm brokerOffsetMap consumerOffsetMap group topic partition
          = [LogNegativeLag
               (statName (Prefix (StatsdCfg qsm)) group topic partition) (- c)])
    as Hbody.
  { unfold computeLag_body. cbv zeta.
    rewrite index_gtp_lookup, index_tp_lookup, Hc, Hb. cbn [from_option id].
    rewrite sub64_exact by (unfold Int.is_int64; lia).
    rewrite decide_True by lia. do 2 f_equal. }
  split; [done|]. apply elem_of_computeLag. exists group, topic, partition, c.
  split; [done|]. rewrite Hbody. apply list_elem_of_here.
Qed.

Lemma cold_start_lag_dropped_witness :
  LogNegativeLag "kqm.group.g1.t.0" (-5)
    ∈ computeLag Sample.twoGroups ∅ (ConsumerOffsetStore Sample.twoGroups).
Proof.
  refine (proj2 (cold_start_lag_dropped Sample.twoGroups ∅
                   (ConsumerOffsetStore Sample.twoGroups) "g1" "t" 0 5 _ _ _)).
  - vm_compute. reflexivity.
  - reflexivity.
  - lia.
Defined.

(** X12. The lag is an [int64]: when the broker offset exceeds the
    consumer offset by 2^63 or more the subtraction wraps, the lag is the
    difference less 2^64, a negative number, and the entry is logged as a
    negative lag and not sent. *)
Theorem lag_overflow_dropped (qsm : QueueSizeMonitor)
    (brokerOffsetMap : TPOffsetMap) (consumerOffsetMap : GTPOffsetMap)
    (group topic : string) (partition b c : Z) :
  lookup_gtp consumerOffsetMap group topic partition = Some c →
  lookup_tp brokerOffsetMap topic partition = Some b →
  Int.is_int64 b → Int.is_int64 c → 2 ^ 63 ≤ b - c →
  computeLag_body qsm brokerOffsetMap consumerOffsetMap group topic partition
  = [LogNegativeLag (statName (Prefix (StatsdCfg qsm)) group topic partition)
       (b - c - 2 ^ 64)]
  ∧ b - c - 2 ^ 64 < 0.
Proof.
  unfold Int.is_int64. intros Hc Hb Hbr Hcr Hbig.
  unfold computeLag_body. cbv zeta.
  rewrite index_gtp_lookup, index_tp_lookup, Hc, Hb. cbn [from_option id].
  assert (Int.sub64 b c = b - c - 2 ^ 64) as ->.
  { unfold Int.sub64, Int.to_int64.
    replace (b - c + 2 ^ 63) with ((b - c - 2 ^ 63) + 1 * 2 ^ 64) by lia.
    rewrite Z_mod_plus_full, Z.mod_small by lia. lia. }
  rewrite decide_True by lia. split; [done | lia].
Qed.

Lemma lag_overflow_dropped_witness :
  computeLag_body Sample.monitor
    (BrokerOffsetStore
       (storeBrokerOffset (Sample.brokerOffset "t" 0 (2 ^ 63 - 1)) Sample.monitor))
    (ConsumerOffsetStore
       (storeConsumerOffset (Sample.offset "g" "t" 0 (-1)) Sample.monitor))
    "g" "t" 0
  = [LogNegativeLag "kqm.group.g.t.0" (2 ^ 63 - 1 - -1 - 2 ^ 64)].
Proof.
  refine (proj1 (lag_overflow_dropped Sample.monitor _ _ "g" "t" 0
                   (2 ^ 63 - 1) (-1) _ _ _ _ _)).
  - vm_compute. reflexivity.
  - vm_compute. reflexivity.
  - unfold Int.is_int64. lia.
  - unfold Int.is_int64. lia.
  - lia.
Defined.

(** ** More of the poller *)

Section MoreSnapshot.

Lemma filled_foldl {A} (f : gmap string (list Z) → A → gmap string (list Z)) l tpMap :
  (∀ m a, filled m → filled (f m a)) → filled tpMap → filled (foldl f tpMap l).
Proof.
  intros Hf. revert tpMap. induction l as [|a l IH]; intros tpMap H; [done|].
  cbn [foldl]. apply IH. by apply Hf.
Qed.

Lemma filled_stepP topic m pc : filled m → filled (stepP topic m pc).
Proof.
  intros Hm t l. destruct pc as [p c]. unfold stepP.
  destruct (decide (t = topic)) as [->|Ht].
  - rewrite lookup_insert_eq. intros [= <-]. by destruct (default [] (m !! topic)).
  - rewrite lookup_insert_ne by done. apply Hm.
Qed.

Lemma filled_getTopicsAndPartitions offsetStore :
  filled (getTopicsAndPartitions offsetStore).
Proof.
  rewrite getTopicsAndPartitions_fold. apply filled_foldl; [|done].
  intros m [g gbody] Hm. unfold stepG. apply filled_foldl; [|done].
  clear m Hm. intros m [t tbody] Hm. unfold stepT. apply filled_foldl; [|done].
  intros. by apply filled_stepP.
Qed.

End MoreSnapshot.

(** X13. The map that [getTopicsAndPartitions] returns has a topic as key
    if and only if some group has an entry for some partition of that
    topic, and the slice of every key is non-empty: a topic never comes
    with an empty list of partitions. *)
Theorem snapshot_topics (offsetStore : GTPOffsetMap) (topic : string) :
  (is_Some (getTopicsAndPartitions offsetStore !! topic) ↔
   ∃ group partition, is_Some (lookup_gtp offsetStore group topic partition))
  ∧ ∀ l, getTopicsAndPartitions offsetStore !! topic = Some l → l ≠ [].
Proof.
  split; [|intros l; apply filled_getTopicsAndPartitions].
  split.
  - intros [l Hl].
    pose proof (filled_getTopicsAndPartitions offsetStore _ _ Hl) as Hne.
    destruct l as [|p l]; [done|].
    assert (p ∈ index_slice (getTopicsAndPartitions offsetStore) topic) as Hp.
    { unfold index_slice. rewrite Hl. apply list_elem_of_here. }
    apply elem_of_getTopicsAndPartitions in Hp as [g Hg]. eauto.
  - intros (g & p & Hs).
    assert (p ∈ index_slice (getTopicsAndPartitions offsetStore) topic) as Hp
      by (apply elem_of_getTopicsAndPartitions; eauto).
    unfold index_slice in Hp.
    destruct (getTopicsAndPartitions offsetStore !! topic); [by eexists|].
    by apply elem_of_nil in Hp.
Qed.

Section MoreBatching.

Variable client : sarama.Client.

Lemma visitPair_Some reqs tp leader :
  is_Some (visitPair client reqs tp !! leader) ↔
  is_Some (reqs !! leader) ∨ leaderOf client tp = Some leader.
Proof.
  unfold visitPair, leaderOf, addToRequests.
  destruct (sarama.Leader client tp.1 tp.2) as [br|]; cbn.
  - destruct (decide (sarama.ID br = leader)) as [<-|Hne].
    + destruct (reqs !! sarama.ID br) eqn:E; rewrite lookup_insert_eq;
        split; eauto.
    + assert (reqs !! leader
              = match reqs !! sarama.ID br with
                | Some r =>
                    <[sarama.ID br :=
                        {| Broker := Broker r;
                           OffsetRequest :=
                             sarama.AddBlock tp.1 tp.2 sarama.OffsetNewest 1
                               (OffsetRequest r) |}]> reqs
                | None =>
                    <[sarama.ID br :=
                        {| Broker := br;
                           OffsetRequest := {| sarama.blocks := ∅ |} |}]> reqs
                end !! leader) as <-
        by (destruct (reqs !! sarama.ID br); by rewrite lookup_insert_ne).
      split; [by left|]. intros [?|[= ?]]; done.
  - split; [by left|]. intros [?|[=]]; done.
Qed.

Lemma foldl_visitPair_Some reqs l leader :
  is_Some (foldl (visitPair client) reqs l !! leader) ↔
  is_Some (reqs !! leader) ∨ ∃ tp, tp ∈ l ∧ leaderOf client tp = Some leader.
Proof.
  revert reqs. induction l as [|tp l IH]; intros reqs; cbn [foldl].
  - split; [by left|]. intros [?|(tp & H & _)]; [done|]. by apply elem_of_nil in H.
  - rewrite IH, visitPair_Some. split.
    + intros [[?|?]|(x & Hx & ?)]; [by left| |].
      * right. exists tp. split; [apply list_elem_of_here | done].
      * right. exists x. split; [by right | done].
    + intros [?|(x & Hx & ?)]; [by left; left|].
      apply elem_of_cons in Hx as [->|Hx]; [by left; right|].
      right. eauto.
Qed.

Lemma keyed_visitPair reqs tp : keyed reqs → keyed (visitPair client reqs tp).
Proof.
  intros Hk leader r. unfold visitPair, addToRequests.
  destruct (sarama.Leader client tp.1 tp.2) as [br|]; [|apply Hk].
  destruct (decide (sarama.ID br = leader)) as [<-|Hne].
  - destruct (reqs !! sarama.ID br) as [r0|] eqn:E; rewrite lookup_insert_eq;
      intros [= <-]; cbn [Broker]; [by apply Hk | done].
  - destruct (reqs !! sarama.ID br); rewrite lookup_insert_ne by done; apply Hk.
Qed.

Lemma keyed_foldl reqs l : keyed reqs → keyed (foldl (visitPair client) reqs l).
Proof.
  revert reqs. induction l as [|tp l IH]; intros reqs H; [done|].
  cbn [foldl]. apply IH. by apply keyed_visitPair.
Qed.

Lemma keyed_buildRequests tpList : keyed (buildRequests client tpList).
Proof. rewrite buildRequests_visits. by apply keyed_foldl. Qed.

(** The blocks of a request after [AddBlock]. *)
Lemma AddBlock_block (m : gmap string (gmap Z (Z * Z))) t0 p0 x t p :
  is_Some (default ∅ (<[t0 := <[p0 := x]> (default ∅ (m !! t0))]> m !! t) !! p) ↔
  (t = t0 ∧ p = p0) ∨ is_Some (default ∅ (m !! t) !! p).
Proof.
  destruct (decide (t = t0)) as [->|Ht].
  - rewrite lookup_insert_eq. cbn [from_option id].
    destruct (decide (p = p0)) as [->|Hp].
    + rewrite lookup_insert_eq. split; [by left; split | by eexists].
    + rewrite lookup_insert_ne by done. split; [by right|].
      intros [[_ ?]|?]; done.
  - rewrite lookup_insert_ne by done. split; [by right|].
    intros [[? _]|?]; done.
Qed.

Lemma visitPair_hasBlock reqs tp leader topic partition :
  hasBlock (visitPair client reqs tp) leader topic partition ↔
  hasBlock reqs leader topic partition
  ∨ (tp = (topic, partition) ∧ leaderOf client tp = Some leader
     ∧ is_Some (reqs !! leader)).
Proof.
  unfold visitPair, leaderOf, addToRequests, hasBlock.
  destruct (sarama.Leader client tp.1 tp.2) as [br|]; cbn.
  - destruct (decide (sarama.ID br = leader)) as [<-|Hne].
    + destruct (reqs !! sarama.ID br) as [r0|] eqn:E; rewrite lookup_insert_eq.
      * split.
        -- intros (r & [= <-] & Hb).
           cbn [OffsetRequest sarama.AddBlock sarama.blocks] in Hb.
           apply AddBlock_block in Hb as [[-> ->]|Hb]; [|left; eauto].
           right. destruct tp. split; [done|]. split; [done | by eexists].
        -- intros [(r & [= <-] & Hb)|(-> & _ & _)].
           ++ eexists. split; [done|].
              cbn [OffsetRequest sarama.AddBlock sarama.blocks].
              apply AddBlock_block. by right.
           ++ eexists. split; [done|].
              cbn [OffsetRequest sarama.AddBlock sarama.blocks].
              apply AddBlock_block. by left.
      * split.
        -- intros (r & [= <-] & Hb). cbn [OffsetRequest sarama.blocks] in Hb.
           rewrite lookup_empty in Hb. cbn in Hb. rewrite lookup_empty in Hb.
           by destruct Hb.
        -- intros [(r & [=] & _)|(_ & _ & [? [=]])].
    + assert (∀ m : gmap Z BrokerOffsetRequest,
                m = match reqs !! sarama.ID br with
                    | Some r =>
                        <[sarama.ID br :=
                            {| Broker := Broker r;
                               OffsetRequest :=
                                 sarama.AddBlock tp.1 tp.2 sarama.OffsetNewest 1
                                   (OffsetRequest r) |}]> reqs
                    | None =>
                        <[sarama.ID br :=
                            {| Broker := br;
                               OffsetRequest := {| sarama.blocks := ∅ |} |}]> reqs
                    end → m !! leader = reqs !! leader) as Hm
        by (intros m ->; destruct (reqs !! sarama.ID br);
            by rewrite lookup_insert_ne).
      rewrite (Hm _ eq_refl). split; [by left|].
      intros [?|(_ & [= ?] & _)]; done.
  - split; [by left|]. intros [?|(_ & [=] & _)]; done.
Qed.

Lemma foldl_visitPair_hasBlock reqs l leader topic partition :
  hasBlock (foldl (visitPair client) reqs l) leader topic partition ↔
  hasBlock reqs leader topic partition
  ∨ ∃ pre post,
      l = pre ++ (topic, partition) :: post
      ∧ leaderOf client (topic, partition) = Some leader
      ∧ (is_Some (reqs !! leader)
         ∨ ∃ tp, tp ∈ pre ∧ leaderOf client tp = Some leader).
Proof.
  revert reqs. induction l as [|tp l IH]; intros reqs; cbn [foldl].
  - split; [by left|]. intros [?|(pre & post & H & _)]; [done|].
    by destruct pre.
  - rewrite IH, visitPair_hasBlock. setoid_rewrite visitPair_Some. split.
    + intros [[H|(-> & Hl & Hs)]|(pre & post & -> & Hl & H)].
      * by left.
      * right. exists [], l. split; [done|]. split; [done | by left].
      * right. exists (tp :: pre), post. split; [done|]. split; [done|].
        destruct H as [[H|H]|(x & Hx & H)].
        -- by left.
        -- right. exists tp. split; [apply list_elem_of_here | done].
        -- right. exists x. split; [by right | done].
    + intros [H|(pre & post & Heq & Hl & H)]; [by left; left|].
      destruct pre as [|tp' pre].
      * injection Heq as -> ->. left. right. split; [done|]. split; [done|].
        destruct H as [H|(x & Hx & _)]; [done|]. by apply elem_of_nil in Hx.
      * injection Heq as <- ->. right. exists pre, post.
        split; [done|]. split; [done|].
        destruct H as [H|(x & Hx & H)]; [by left; left|].
        apply elem_of_cons in Hx as [->|Hx]; [by left; right|].
        right. eauto.
Qed.

End MoreBatching.

Section Visits.

Lemma elem_of_visits tpList topic partition :
  (topic, partition) ∈ visits tpList ↔
  ∃ partitions, (topic, partitions) ∈ tpList ∧ partition ∈ partitions.
Proof.
  unfold visits. rewrite list_elem_of_bind. split.
  - intros ([t ps] & H & Htp). cbn in H.
    apply list_elem_of_fmap in H as (p & [= -> ->] & Hp). eauto.
  - intros (ps & Htp & Hp). exists (topic, ps). split; [|done].
    cbn. apply list_elem_of_fmap. eauto.
Qed.

Lemma elem_of_visits_snapshot offsetStore topic partition :
  (topic, partition) ∈ visits (map_to_list (getTopicsAndPartitions offsetStore)) ↔
  ∃ group, is_Some (lookup_gtp offsetStore group topic partition).
Proof.
  rewrite elem_of_visits, <- elem_of_getTopicsAndPartitions. unfold index_slice.
  split.
  - intros (ps & H & Hp). apply elem_of_map_to_list in H. by rewrite H.
  - intros Hp.
    destruct (getTopicsAndPartitions offsetStore !! topic) as [ps|] eqn:E.
    + exists ps. split; [by apply elem_of_map_to_list | done].
    + by apply elem_of_nil in Hp.
Qed.

End Visits.

(** X14. [GetBrokerOffsets] prepares a request for a broker if and only if
    that broker is the leader of some (topic, partition) of the consumer
    table; a pair whose leader cannot be found adds no request and takes
    none away.  Each request is kept under the identity of its own
    broker. *)
Theorem leaders_requested (qsm : QueueSizeMonitor) (leader : Z) :
  let reqs :=
    buildRequests (Client qsm)
      (map_to_list (getTopicsAndPartitions (ConsumerOffsetStore qsm))) in
  (is_Some (reqs !! leader) ↔
   ∃ group topic partition,
     is_Some (lookup_gtp (ConsumerOffsetStore qsm) group topic partition)
     ∧ sarama.ID <$> sarama.Leader (Client qsm) topic partition = Some leader)
  ∧ ∀ r, reqs !! leader = Some r → sarama.ID (Broker r) = leader.
Proof.
  cbv zeta. split.
  - rewrite buildRequests_visits, foldl_visitPair_Some, lookup_empty. split.
    + intros [[? [=]]|([t p] & Hin & Hl)].
      apply elem_of_visits_snapshot in Hin as [g Hg]. eauto.
    + intros (g & t & p & Hs & Hl). right. exists (t, p).
      split; [|done]. apply elem_of_visits_snapshot. eauto.
  - apply keyed_buildRequests.
Qed.

(** X15. The request that the batching loops keep for a leader has a
    block for (topic, partition) if and only if that leader leads the pair
    and the loops visit the pair after some pair of the same leader: the
    first visit of a leader makes the request and adds no block, every
    later visit adds its block. *)
Theorem requested_blocks (client : sarama.Client) (tpList : list (string * list Z))
    (leader : Z) (topic : string) (partition : Z) :
  hasBlock (buildRequests client tpList) leader topic partition ↔
  ∃ pre post,
    visits tpList = pre ++ (topic, partition) :: post
    ∧ leaderOf client (topic, partition) = Some leader
    ∧ ∃ tp, tp ∈ pre ∧ leaderOf client tp = Some leader.
Proof.
  rewrite buildRequests_visits, foldl_visitPair_hasBlock. split.
  - intros [(r & Hr & _)|(pre & post & Hv & Hl & [[r Hr]|H])].
    + by rewrite lookup_empty in Hr.
    + by rewrite lookup_empty in Hr.
    + eauto.
  - intros (pre & post & Hv & Hl & H). right. exists pre, post. eauto.
Qed.

(** ** The answers of the brokers *)

Section Responses.

Import offsets.

Lemma storeResponseBlock_None topic l :
  foldl (storeResponseBlock topic) None l = None.
Proof. by induction l. Qed.

Lemma foldl_blocks_None (L : list (string * gmap Z OffsetResponseBlock)) :
  foldl (λ q tb, foldl (storeResponseBlock tb.1) q (map_to_list tb.2)) None L
  = None.
Proof.
  induction L as [|tb L IH]; [done|]. cbn [foldl].
  by rewrite storeResponseBlock_None.
Qed.

Lemma storeResponseBlock_lookup topic q l q' t p :
  foldl (storeResponseBlock topic) (Some q) l = Some q' →
  NoDup l.*1 →
  lookup_tp (BrokerOffsetStore q') t p
  = pick (if decide (t = topic)
          then (list_to_map l : gmap Z OffsetResponseBlock) !! p else None)
         (lookup_tp (BrokerOffsetStore q) t p)
  ∧ ConsumerOffsetStore q' = ConsumerOffsetStore q.
Proof.
  revert q. induction l as [|[p0 b0] l IH]; intros q H Hnd.
  - injection H as <-. cbn. by case_decide.
  - cbn [foldl] in H. cbn [fmap list_fmap fst] in Hnd.
    apply NoDup_cons in Hnd as [Hp0 Hnd].
    pose proof (not_elem_of_list_to_map_1 (M := gmap Z) l p0 Hp0) as Hnone.
    rewrite list_to_map_cons.
    unfold storeResponseBlock at 2 in H. cbn [mbind option_bind fst snd] in H.
    destruct (decide (Err b0 ≠ ErrNoError)) as [He|He].
    + destruct (IH _ H Hnd) as [-> ->]. split; [|done].
      case_decide as Ht; [|done]. subst t.
      destruct (decide (p = p0)) as [->|Hp].
      * rewrite Hnone, lookup_insert_eq. cbn. by rewrite decide_False.
      * by rewrite lookup_insert_ne.
    + destruct (Offsets b0) as [|o os] eqn:Eo.
      { by rewrite storeResponseBlock_None in H. }
      destruct (IH _ H Hnd) as [-> ->]. split; [|done].
      rewrite lookup_storeBrokerOffset. cbn [Topic Partition Offset].
      case_decide as Ht.
      * subst t. destruct (decide (p = p0)) as [->|Hp].
        -- rewrite Hnone, lookup_insert_eq. cbn.
           rewrite decide_True by done.
           rewrite decide_True by (apply dec_stable in He; done).
           by rewrite Eo.
        -- rewrite lookup_insert_ne by done.
           by rewrite decide_False by (intros [_ ?]; done).
      * by rewrite decide_False by (intros [? _]; done).
Qed.

Lemma foldl_blocks_lookup (L : list (string * gmap Z OffsetResponseBlock)) q q' t p :
  foldl (λ q tb, foldl (storeResponseBlock tb.1) q (map_to_list tb.2)) (Some q) L
  = Some q' →
  NoDup L.*1 →
  lookup_tp (BrokerOffsetStore q') t p
  = pick ((list_to_map L : gmap string (gmap Z OffsetResponseBlock)) !! t
            ≫= λ pm, pm !! p)
         (lookup_tp (BrokerOffsetStore q) t p)
  ∧ ConsumerOffsetStore q' = ConsumerOffsetStore q.
Proof.
  revert q. induction L as [|[t0 pm0] L IH]; intros q H Hnd.
  - by injection H as <-.
  - cbn [foldl fst snd] in H. cbn [fmap list_fmap fst] in Hnd.
    apply NoDup_cons in Hnd as [Ht0 Hnd].
    pose proof (not_elem_of_list_to_map_1 (M := gmap string) L t0 Ht0) as Hnone.
    destruct (foldl (storeResponseBlock t0) (Some q) (map_to_list pm0))
      as [q1|] eqn:E1; [|by rewrite foldl_blocks_None in H].
    destruct (storeResponseBlock_lookup _ _ _ _ t p E1
                (NoDup_fst_map_to_list pm0)) as [H1 HC1].
    rewrite list_to_map_to_list in H1.
    destruct (IH _ H Hnd) as [-> ->]. split; [|done].
    rewrite list_to_map_cons, H1.
    destruct (decide (t = t0)) as [->|Ht].
    + by rewrite Hnone, lookup_insert_eq.
    + by rewrite lookup_insert_ne.
Qed.

Lemma storeResponseBlock_panics topic q l :
  foldl (storeResponseBlock topic) q l = None ↔
  q = None ∨ ∃ pb, pb ∈ l ∧ Err pb.2 = ErrNoError ∧ Offsets pb.2 = [].
Proof.
  revert q. induction l as [|pb l IH]; intros q; cbn [foldl].
  - split; [by left|]. intros [?|(pb & H & _)]; [done|]. by apply elem_of_nil in H.
  - rewrite IH. unfold storeResponseBlock at 1. split.
    + intros [H|(x & Hx & H)]; [|right; exists x; split; [by right|done]].
      destruct q as [q|]; [|by left]. cbn [mbind option_bind] in H.
      case_decide as He; [done|].
      destruct (Offsets pb.2) eqn:Eo; [|done].
      right. exists pb. split; [apply list_elem_of_here|].
      split; done.
    + intros [->|(x & Hx & He & Ho)]; [by left|].
      apply elem_of_cons in Hx as [->|Hx]; [|right; eauto].
      left. destruct q as [q|]; [|done]. cbn [mbind option_bind].
      rewrite decide_False by (intros ?; done). by rewrite Ho.
Qed.

Lemma foldl_blocks_panics (L : list (string * gmap Z OffsetResponseBlock)) q :
  foldl (λ q tb, foldl (storeResponseBlock tb.1) q (map_to_list tb.2)) q L = None ↔
  q = None
  ∨ ∃ tb pb, tb ∈ L ∧ pb ∈ map_to_list tb.2
             ∧ Err pb.2 = ErrNoError ∧ Offsets pb.2 = [].
Proof.
  revert q. induction L as [|tb L IH]; intros q; cbn [foldl].
  - split; [by left|]. intros [?|(tb & pb & H & _)]; [done|].
    by apply elem_of_nil in H.
  - rewrite IH, storeResponseBlock_panics. split.
    + intros [[?|(pb & Hpb & H)]|(x & pb & Hx & H)]; [by left| |].
      * right. exists tb, pb. split; [apply list_elem_of_here | done].
      * right. exists x, pb. split; [by right | done].
    + intros [?|(x & pb & Hx & Hpb & H)]; [by left; left|].
      apply elem_of_cons in Hx as [->|Hx]; [left; right; eauto|].
      right. eauto.
Qed.

End Responses.

(** X16. When [getOffsetResponse] handles an answer without a panic, the
    broker table afterwards holds, for every (topic, partition) that has a
    block without error in the answer, the first offset of that block, and
    for every other pair (no block, or a block with an error code) what it
    held before; the consumer table is not touched. *)
Theorem response_upserts (response : offsets.OffsetResponse)
    (qsm after : QueueSizeMonitor) (topic : string) (partition : Z) :
  getOffsetResponse (Some response) qsm = Some after →
  lookup_tp (BrokerOffsetStore after) topic partition
  = match offsets.blockAt response topic partition with
    | Some block =>
        if decide (offsets.Err block = offsets.ErrNoError)
        then head (offsets.Offsets block)
        else lookup_tp (BrokerOffsetStore qsm) topic partition
    | None => lookup_tp (BrokerOffsetStore qsm) topic partition
    end
  ∧ ConsumerOffsetStore after = ConsumerOffsetStore qsm.
Proof.
  unfold getOffsetResponse. intros H.
  destruct (foldl_blocks_lookup _ _ _ topic partition H
              (NoDup_fst_map_to_list _)) as [-> ->].
  by rewrite list_to_map_to_list.
Qed.

Lemma response_upserts_witness :
  lookup_tp
    (BrokerOffsetStore
       (default Sample.monitor
          (getOffsetResponse (Some Fixture.answer) Sample.monitor)))
    "t1" 0 = Some 110.
Proof.
  assert (getOffsetResponse (Some Fixture.answer) Sample.monitor
          = Some (default Sample.monitor
                    (getOffsetResponse (Some Fixture.answer) Sample.monitor)))
    as H by (vm_compute; reflexivity).
  rewrite (proj1 (response_upserts Fixture.answer Sample.monitor _ "t1" 0 H)).
  vm_compute. reflexivity.
Defined.

(** X17. [getOffsetResponse] panics on an answer if and only if the answer
    has a block that carries no error and no offset: the index expression
    [Offsets[0]] is evaluated without a check of the length.  An answer
    that is an error never panics and leaves the monitor as it was. *)
Theorem response_panics (response : offsets.OffsetResponse) (qsm : QueueSizeMonitor) :
  (getOffsetResponse (Some response) qsm = None ↔
   ∃ topic partition block,
     offsets.blockAt response topic partition = Some block
     ∧ offsets.Err block = offsets.ErrNoError ∧ offsets.Offsets block = [])
  ∧ getOffsetResponse None qsm = Some qsm.
Proof.
  split; [|done]. unfold getOffsetResponse, offsets.blockAt.
  rewrite foldl_blocks_panics. split.
  - intros [[=]|([t pm] & [p b] & Ht & Hp & He & Ho)].
    apply elem_of_map_to_list in Ht, Hp. cbn in *.
    exists t, p, b. rewrite Ht. cbn. done.
  - intros (t & p & b & Hb & He & Ho). right.
    destruct (offsets.Blocks response !! t) as [pm|] eqn:Ht; [|done].
    cbn in Hb. exists (t, pm), (p, b).
    split; [by apply elem_of_map_to_list|].
    split; [by apply elem_of_map_to_list | done].
Qed.

(** X18. [parseCommand] answers the error if and only if the command line
    names no broker.  Otherwise the configuration holds the brokers and
    the two Statsd flags as given, and for a read interval of at most
    9223372036 seconds in absolute value the duration is that many
    seconds, without wrap-around. *)
Theorem parseCommand_config (readInterval : Z) (statsdAddr statsdPrefix : string)
    (brokers : list string) :
  (Main.parseCommand readInterval statsdAddr statsdPrefix brokers = None ↔
   brokers = [])
  ∧ (brokers ≠ [] → - 9223372036 ≤ readInterval ≤ 9223372036 →
     Main.parseCommand readInterval statsdAddr statsdPrefix brokers
     = Some {| Main.KafkaCfg := {| Main.Brokers := brokers |};
               Main.StatsdCfg := {| Addr := statsdAddr; Prefix := statsdPrefix |};
               Main.ReadInterval := readInterval * 1000000000 |}).
Proof.
  split.
  - unfold Main.parseCommand. by destruct brokers.
  - intros Hb Hr. unfold Main.parseCommand, Main.Second.
    destruct brokers; [done|].
    rewrite to_int64_id by (unfold Int.is_int64; lia). done.
Qed.

Lemma parseCommand_config_witness :
  Main.parseCommand 60 "127.0.0.1:8125" "kqm" ["localhost:9092"]
  = Some {| Main.KafkaCfg := {| Main.Brokers := ["localhost:9092"] |};
            Main.StatsdCfg := {| Addr := "127.0.0.1:8125"; Prefix := "kqm" |};
            Main.ReadInterval := 60 * 1000000000 |}.
Proof.
  apply (parseCommand_config 60 "127.0.0.1:8125" "kqm" ["localhost:9092"]).
  - discriminate.
  - lia.
Defined.

(** ** Stat names and the fresh monitor *)

(** X19. Stat names do not separate group and topic: a dot in a group or
    topic name moves the border, so two different (group, topic) pairs can
    share every stat name.  For one group and topic, different partitions
    never share a stat name. *)
Theorem stat_name_ambiguity (prefix a b c : string) (partition partition' : Z) :
  statName prefix (a +:+ "." +:+ b) c partition
  = statName prefix a (b +:+ "." +:+ c) partition
  ∧ (statName prefix a b partition = statName prefix a b partition' →
     partition = partition').
Proof.
  split.
  - unfold statName. f_equal. f_equal. by rewrite !append_assoc.
  - unfold statName, fmt_d. intros H.
    repeat apply String.app_inj in H. by apply pretty_Z_inj in H.
Qed.

Lemma stat_name_ambiguity_witness :
  statName "kqm" "clark.kent" "t" 0 = statName "kqm" "clark" "kent.t" 0.
Proof. exact (proj1 (stat_name_ambiguity "kqm" "clark" "kent" "t" 0 0)). Defined.

(** X20. [NewQueueSizeMonitor] fails exactly when the broker client or the
    Statsd socket cannot be made.  The monitor it returns has its Statsd
    client and two empty tables: until a commit record is stored it asks no
    broker for offsets and [computeLag] reports nothing. *)
Theorem fresh_monitor_is_silent (client : option sarama.Client)
    (statsdClient : statsd.StatsdClient) (socket : option unit)
    (statsdCfg : StatsdConfig) :
  (NewQueueSizeMonitor client statsdClient socket statsdCfg = None ↔
   client = None ∨ socket = None)
  ∧ ∀ qsm,
      NewQueueSizeMonitor client statsdClient socket statsdCfg = Some qsm →
      StatsdClient qsm = Some statsdClient
      ∧ GetBrokerOffsets_requests qsm = []
      ∧ computeLag qsm (BrokerOffsetStore qsm) (ConsumerOffsetStore qsm) = [].
Proof.
  split.
  - unfold NewQueueSizeMonitor. destruct client, socket; split; try done.
    + intros [?|?]; done.
    + by right.
    + by left.
    + by left.
  - intros qsm H. apply NewQueueSizeMonitor_client in H as (Hc & HC & HB).
    split; [done|]. split.
    + unfold GetBrokerOffsets_requests. rewrite HC.
      unfold getTopicsAndPartitions. rewrite map_to_list_empty. cbn [foldl].
      rewrite map_to_list_empty. unfold buildRequests. cbn [foldl].
      apply map_to_list_empty.
    + unfold computeLag. rewrite HC, map_to_list_empty. done.
Qed.

Lemma fresh_monitor_is_silent_witness :
  GetBrokerOffsets_requests Sample.monitor = [].
Proof.
  refine (proj1 (proj2 (proj2 (fresh_monitor_is_silent (Some Sample.client)
                                 {| statsd.Gauge := λ _ _, None |} (Some ())
                                 {| Addr := "127.0.0.1:8125"; Prefix := "kqm" |})
                          Sample.monitor _))).
  reflexivity.
Defined.

(** An answer with an error-free block that has no offset makes the
    handler panic; the answer with a good and a failed block does not. *)
Example getOffsetResponse_examples :
  getOffsetResponse (Some Fixture.panicking) Sample.monitor = None
  ∧ is_Some (getOffsetResponse (Some Fixture.answer) Sample.monitor).
Proof. split; [vm_compute; reflexivity | vm_compute; by eexists]. Qed.
